(** * IntervalJitter: a shallow embedding of [src/index.js]

    The repository is one constructor function, [IntervalJitter], with six
    prototype methods.  The development below embeds

    - the JavaScript values the interval bounds range over and the operators
      the code applies to them ([!], [!==], [<], [>], [-], [+], [*],
      [Math.floor]);
    - the object the constructor builds, as a record with the source's
      property names;
    - the host's timer queue ([setTimeout] / [clearTimeout]) together with a
      trace of what happened, so that [run], [stop] and the two closures the
      loop hands to [setTimeout] can be executed step by step.

    Modelling choices, stated once:

    - A finite JavaScript number is a binary64 value, hence a rational; it is
      embedded in [Q] and compared there (comparison of binary64 values is
      exact).  Arithmetic is carried out in [Q] as well: rounding and
      overflow of binary64 arithmetic are not modelled, and the two zeros
      are one.  [NaN] and the two infinities are separate constructors.
    - Interval arguments range over [undefined], [null], booleans and
      numbers.  Strings, symbols, bigints and objects, whose coercions run
      through string parsing or user code, are outside the embedding.
    - A callback argument is one of those values or a function.  A function
      is given by what it does to its receiver (a list of method calls on
      [this]) and by how it ends (a returned value or an exception).
    - [onCallbackExecuted] is the method of the prototype; an override in a
      child class is not modelled.
    - The host may fire any pending timer at any step, so a statement about
      every sequence of steps holds however much time passes. *)

From Stdlib Require Import QArith Qround ZArith Lia Lqa List Bool.
Import ListNotations.

Set Implicit Arguments.

Close Scope Q_scope.
Open Scope Z_scope.

(** ** Numbers *)

Module Num.

Inductive number : Type :=
| NaN
| PosInf
| NegInf
| Fin (q : Q).

Definition Qltb (x y : Q) : bool := negb (Qle_bool y x).

Definition of_Z (z : Z) : number := Fin (inject_Z z).

(** IEEE [<]: false as soon as one side is [NaN]. *)
Definition lt (a b : number) : bool :=
  match a, b with
  | NaN, _ | _, NaN => false
  | Fin x, Fin y => Qltb x y
  | NegInf, NegInf => false
  | NegInf, _ => true
  | _, NegInf => false
  | PosInf, _ => false
  | Fin _, PosInf => true
  end.

(** IEEE equality, the one [===] uses on two numbers. *)
Definition eqb (a b : number) : bool :=
  match a, b with
  | Fin x, Fin y => Qeq_bool x y
  | PosInf, PosInf | NegInf, NegInf => true
  | _, _ => false
  end.

Definition le (a b : number) : bool := lt a b || eqb a b.

Definition neg (a : number) : number :=
  match a with
  | NaN => NaN
  | PosInf => NegInf
  | NegInf => PosInf
  | Fin x => Fin (- x)%Q
  end.

Definition add (a b : number) : number :=
  match a, b with
  | NaN, _ | _, NaN => NaN
  | PosInf, NegInf | NegInf, PosInf => NaN
  | PosInf, _ | _, PosInf => PosInf
  | NegInf, _ | _, NegInf => NegInf
  | Fin x, Fin y => Fin (x + y)%Q
  end.

Definition sub (a b : number) : number := add a (neg b).

(** The sign of an infinite product; a zero factor gives [NaN]. *)
Definition scale_inf (positive : bool) (x : Q) : number :=
  if Qeq_bool x 0%Q then NaN
  else if Bool.eqb positive (Qltb 0%Q x) then PosInf else NegInf.

Definition mul (a b : number) : number :=
  match a, b with
  | NaN, _ | _, NaN => NaN
  | Fin x, Fin y => Fin (x * y)%Q
  | PosInf, Fin x | Fin x, PosInf => scale_inf true x
  | NegInf, Fin x | Fin x, NegInf => scale_inf false x
  | PosInf, PosInf | NegInf, NegInf => PosInf
  | PosInf, NegInf | NegInf, PosInf => NegInf
  end.

(** [Math.floor] on a number. *)
Definition floor (a : number) : number :=
  match a with
  | Fin x => of_Z (Qfloor x)
  | _ => a
  end.

End Num.

Import Num.

(** ** Values and the operators of the source *)

Inductive value : Type :=
| undefined
| null
| VBool (b : bool)
| VNum (n : number).

Definition num (z : Z) : value := VNum (of_Z z).

(** [ToNumber] and [ToBoolean] of ECMAScript on these values. *)
Definition ToNumber (v : value) : number :=
  match v with
  | undefined => NaN
  | null => of_Z 0
  | VBool true => of_Z 1
  | VBool false => of_Z 0
  | VNum n => n
  end.

Definition ToBoolean (v : value) : bool :=
  match v with
  | undefined | null => false
  | VBool b => b
  | VNum NaN => false
  | VNum (Fin x) => negb (Qeq_bool x 0%Q)
  | VNum _ => true
  end.

(** [!v] *)
Definition js_not (v : value) : bool := negb (ToBoolean v).

(** [a === b]: same type and same value. *)
Definition strict_eq (a b : value) : bool :=
  match a, b with
  | undefined, undefined | null, null => true
  | VBool x, VBool y => Bool.eqb x y
  | VNum x, VNum y => Num.eqb x y
  | _, _ => false
  end.

(** [a !== b] *)
Definition strict_neq (a b : value) : bool := negb (strict_eq a b).

(** [a < b] and [a > b]: with no string among the values both operands go
    through [ToNumber]; an undefined comparison (a [NaN] side) is false. *)
Definition js_lt (a b : value) : bool := Num.lt (ToNumber a) (ToNumber b).
Definition js_gt (a b : value) : bool := Num.lt (ToNumber b) (ToNumber a).

(** [a - b], [a + b], [a * b]: numeric, since neither operand is a string. *)
Definition js_sub (a b : value) : value := VNum (Num.sub (ToNumber a) (ToNumber b)).
Definition js_add (a b : value) : value := VNum (Num.add (ToNumber a) (ToNumber b)).
Definition js_mul (a b : value) : value := VNum (Num.mul (ToNumber a) (ToNumber b)).

Definition Math_floor (a : value) : value := VNum (Num.floor (ToNumber a)).

(** ** Constants of the module *)

Definition INTERVAL_JITTER_DEFAULT_MAX_INTERVAL : value := num 1000.
Definition INTERVAL_JITTER_MAX_INTERVAL : value := num 2147483647.

(** ** Callbacks

    What client code can pass where a callback is expected: a value that is
    not callable, or a function.  A function is described by the method
    calls it makes on its receiver while it runs and by its outcome. *)

Inductive outcome : Type :=
| Return (res : value)
| Throw.

Inductive callable : Type :=
| NotCallable (v : value)
| Func (body : list call) (result : outcome)
with call : Type :=
| CallStop
| CallRun (r : Q)
| CallSetMinInterval (v : value)
| CallSetMaxInterval (v : value)
| CallSetCallback (c : callable).

(** [typeof c === "function"] *)
Definition is_function (c : callable) : bool :=
  match c with
  | Func _ _ => true
  | NotCallable _ => false
  end.

(** ** The instance *)

(** A timer handle as the host returns it: a positive integer.  A property
    holding [null] (or not yet assigned) is [None]. *)
Definition handle := nat.

Record jitter : Type := mkJitter {
  callback : callable;
  stopped : bool;
  minInterval : value;
  maxInterval : value;
  randomInterval : value;
  outerTimeoutTimer : option handle;
  innerTimeoutTimer : option handle
}.

(** The object [new] hands to the constructor: no own property yet, so every
    read gives [undefined] (falsy). *)
Definition fresh_object : jitter :=
  {| callback := NotCallable undefined;
     stopped := false;
     minInterval := undefined;
     maxInterval := undefined;
     randomInterval := undefined;
     outerTimeoutTimer := None;
     innerTimeoutTimer := None |}.

Definition with_callback (c : callable) (j : jitter) : jitter :=
  {| callback := c; stopped := stopped j;
     minInterval := minInterval j; maxInterval := maxInterval j;
     randomInterval := randomInterval j;
     outerTimeoutTimer := outerTimeoutTimer j;
     innerTimeoutTimer := innerTimeoutTimer j |}.

Definition with_stopped (b : bool) (j : jitter) : jitter :=
  {| callback := callback j; stopped := b;
     minInterval := minInterval j; maxInterval := maxInterval j;
     randomInterval := randomInterval j;
     outerTimeoutTimer := outerTimeoutTimer j;
     innerTimeoutTimer := innerTimeoutTimer j |}.

Definition with_minInterval (v : value) (j : jitter) : jitter :=
  {| callback := callback j; stopped := stopped j;
     minInterval := v; maxInterval := maxInterval j;
     randomInterval := randomInterval j;
     outerTimeoutTimer := outerTimeoutTimer j;
     innerTimeoutTimer := innerTimeoutTimer j |}.

Definition with_maxInterval (v : value) (j : jitter) : jitter :=
  {| callback := callback j; stopped := stopped j;
     minInterval := minInterval j; maxInterval := v;
     randomInterval := randomInterval j;
     outerTimeoutTimer := outerTimeoutTimer j;
     innerTimeoutTimer := innerTimeoutTimer j |}.

Definition with_randomInterval (v : value) (j : jitter) : jitter :=
  {| callback := callback j; stopped := stopped j;
     minInterval := minInterval j; maxInterval := maxInterval j;
     randomInterval := v;
     outerTimeoutTimer := outerTimeoutTimer j;
     innerTimeoutTimer := innerTimeoutTimer j |}.

Definition with_outerTimeoutTimer (h : option handle) (j : jitter) : jitter :=
  {| callback := callback j; stopped := stopped j;
     minInterval := minInterval j; maxInterval := maxInterval j;
     randomInterval := randomInterval j;
     outerTimeoutTimer := h;
     innerTimeoutTimer := innerTimeoutTimer j |}.

Definition with_innerTimeoutTimer (h : option handle) (j : jitter) : jitter :=
  {| callback := callback j; stopped := stopped j;
     minInterval := minInterval j; maxInterval := maxInterval j;
     randomInterval := randomInterval j;
     outerTimeoutTimer := outerTimeoutTimer j;
     innerTimeoutTimer := h |}.

(** ** The setters *)

(** [IntervalJitter.prototype.setMinInterval] *)
Definition setMinInterval (this : jitter) (minInterval' : value) : jitter :=
  if (strict_neq minInterval' (num 0) && js_not minInterval')
     || js_lt minInterval' (num 0)
     || js_gt minInterval' INTERVAL_JITTER_MAX_INTERVAL
     || js_gt minInterval' (maxInterval this)
  then with_minInterval (num 0) this
  else with_minInterval minInterval' this.

(** [IntervalJitter.prototype.setMaxInterval] *)
Definition setMaxInterval (this : jitter) (maxInterval' : value) : jitter :=
  if (strict_neq maxInterval' (num 0) && js_not maxInterval')
     || js_lt maxInterval' (num 0)
     || js_lt maxInterval' (minInterval this)
  then with_maxInterval INTERVAL_JITTER_DEFAULT_MAX_INTERVAL this
  else if js_gt maxInterval' INTERVAL_JITTER_MAX_INTERVAL
  then with_maxInterval INTERVAL_JITTER_MAX_INTERVAL this
  else with_maxInterval maxInterval' this.

(** [IntervalJitter.prototype.setCallback] *)
Definition setCallback (this : jitter) (callback' : callable) : jitter :=
  if is_function callback' then with_callback callback' this else this.

(** ** The constructor *)

(** The second argument after destructuring: the two properties read from
    it, [undefined] for one that is absent (and for both when the argument
    itself is omitted, by the [= {}] default). *)
Record options : Type := mkOptions {
  opt_minInterval : value;
  opt_maxInterval : value
}.

Definition no_options : options :=
  {| opt_minInterval := undefined; opt_maxInterval := undefined |}.

(** A destructuring default [x = d] applies exactly when the property is
    [undefined]. *)
Definition or_default (v d : value) : value :=
  match v with
  | undefined => d
  | _ => v
  end.

(** [function IntervalJitter(callback, { minInterval = 0, maxInterval = ... } = {})] *)
Definition IntervalJitter (callback' : callable) (o : options) : jitter :=
  let minInterval' := or_default (opt_minInterval o) (num 0) in
  let maxInterval' := or_default (opt_maxInterval o) INTERVAL_JITTER_DEFAULT_MAX_INTERVAL in
  let this := fresh_object in
  let this := with_callback callback' this in
  let this := with_stopped true this in
  let this := setMinInterval this minInterval' in
  let this := setMaxInterval this maxInterval' in
  let this := with_outerTimeoutTimer None this in
  let this := with_innerTimeoutTimer None this in
  this.

(** ** The host: timers and a trace *)

(** The two closures the code hands to [setTimeout]: the arrow function of
    [loop] that calls the callback, and [loop] itself. *)
Inductive task : Type :=
| OuterTask
| LoopTask.

Record timer : Type := mkTimer {
  timer_handle : handle;
  timer_task : task;
  timer_delay : value
}.

Inductive event : Type :=
| EvSetTimeout (h : handle) (t : task) (delay : value)
| EvClearTimeout (h : handle)
| EvCall
| EvReturn (res : value)
| EvThrow
| EvTypeError
| EvHook (res : value).

Record world : Type := mkWorld {
  this : jitter;
  timers : list timer;
  next_handle : handle;
  trace : list event
}.

Definition on_this (f : jitter -> jitter) (w : world) : world :=
  {| this := f (this w); timers := timers w;
     next_handle := next_handle w; trace := trace w |}.

Definition log (e : event) (w : world) : world :=
  {| this := this w; timers := timers w;
     next_handle := next_handle w; trace := trace w ++ [e] |}.

(** [setTimeout(task, delay)]: queues the task under a fresh handle and
    returns the handle. *)
Definition setTimeout (t : task) (delay : value) (w : world) : handle * world :=
  let h := next_handle w in
  (h, {| this := this w;
         timers := timers w ++ [mkTimer h t delay];
         next_handle := S h;
         trace := trace w ++ [EvSetTimeout h t delay] |}).

(** [clearTimeout(h)]: drops the timer if it is still pending, and does
    nothing otherwise. *)
Definition clearTimeout (h : handle) (w : world) : world :=
  {| this := this w;
     timers := filter (fun t => negb (Nat.eqb (timer_handle t) h)) (timers w);
     next_handle := next_handle w;
     trace := trace w ++ [EvClearTimeout h] |}.

(** [if (timer) { clearTimeout(timer); }]: the test is the truthiness of
    the property, [null] and [0] being falsy. *)
Definition clear_if_set (o : option handle) (w : world) : world :=
  match o with
  | Some h => if Nat.eqb h 0%nat then w else clearTimeout h w
  | None => w
  end.

(** ** [run], [stop] and the loop *)

(** The expression of [loop] that draws the delay, [r] being the result of
    [Math.random()].  The operations are those of [Num], exact on
    rationals: the value computed here is the value the code computes
    whenever no binary64 operation rounds, and the statements below that
    name a drawn value do so only at such inputs. *)
Definition draw (this : jitter) (r : Q) : value :=
  js_add
    (Math_floor
       (js_mul (VNum (Fin r))
          (js_add (js_sub (maxInterval this) (minInterval this)) (num 1))))
    (minInterval this).

(** The arrow function [loop] of [run]. *)
Definition loop (r : Q) (w : world) : world :=
  if stopped (this w) then w
  else
    let randomInterval' := draw (this w) r in
    let w := on_this (with_randomInterval randomInterval') w in
    let (h, w) := setTimeout OuterTask randomInterval' w in
    on_this (with_outerTimeoutTimer (Some h)) w.

(** [IntervalJitter.prototype.run] *)
Definition run (r : Q) (w : world) : world :=
  loop r (on_this (with_stopped false) w).

(** [IntervalJitter.prototype.stop] *)
Definition stop (w : world) : world :=
  let w := clear_if_set (outerTimeoutTimer (this w)) w in
  let w := clear_if_set (innerTimeoutTimer (this w)) w in
  on_this (with_stopped true) w.

(** [IntervalJitter.prototype.onCallbackExecuted]: the body is [return;].
    The event records that the method was called, and with what. *)
Definition onCallbackExecuted (res : value) (w : world) : world :=
  log (EvHook res) w.

(** A method call on the instance, made by client code or by the callback
    on its receiver. *)
Definition perform (c : call) (w : world) : world :=
  match c with
  | CallStop => stop w
  | CallRun r => run r w
  | CallSetMinInterval v => on_this (fun j => setMinInterval j v) w
  | CallSetMaxInterval v => on_this (fun j => setMaxInterval j v) w
  | CallSetCallback c => on_this (fun j => setCallback j c) w
  end.

Definition perform_all (cs : list call) (w : world) : world :=
  fold_left (fun w c => perform c w) cs w.

(** The arrow function [loop] passes to [setTimeout]:
    [this.callback.call(this)], then the hook, then the zero-delay timer
    that re-enters [loop].  Calling a property that is not a function, or a
    callback that throws, ends the task there. *)
Definition outer_task (w : world) : world :=
  match callback (this w) with
  | NotCallable _ => log EvTypeError w
  | Func body result =>
      let w := log EvCall w in
      let w := perform_all body w in
      match result with
      | Throw => log EvThrow w
      | Return res =>
          let w := log (EvReturn res) w in
          let w := onCallbackExecuted res w in
          let (h, w) := setTimeout LoopTask undefined w in
          on_this (with_innerTimeoutTimer (Some h)) w
      end
  end.

Definition pending (h : handle) (w : world) : option timer :=
  find (fun t => Nat.eqb (timer_handle t) h) (timers w).

Definition dequeue (h : handle) (w : world) : world :=
  {| this := this w;
     timers := filter (fun t => negb (Nat.eqb (timer_handle t) h)) (timers w);
     next_handle := next_handle w;
     trace := trace w |}.

(** The host fires the timer [h]: a one-shot timer leaves the queue and its
    task runs.  Nothing happens for a handle that is not pending. *)
Definition fire (h : handle) (r : Q) (w : world) : world :=
  match pending h w with
  | None => w
  | Some t =>
      match timer_task t with
      | OuterTask => outer_task (dequeue h w)
      | LoopTask => loop r (dequeue h w)
      end
  end.

(** What can happen to an instance: client code calls a method, or the host
    fires a pending timer (in any order: no assumption is made on how much
    time passes).  [r] is what [Math.random()] returns if the step draws. *)
Inductive action : Type :=
| Client (c : call)
| Fire (h : handle) (r : Q).

Definition step (a : action) (w : world) : world :=
  match a with
  | Client c => perform c w
  | Fire h r => fire h r w
  end.

Definition exec (acts : list action) (w : world) : world :=
  fold_left (fun w a => step a w) acts w.

(** [new IntervalJitter(callback, options)] in a host with nothing queued;
    the host numbers its timers from 1. *)
Definition new_world (callback' : callable) (o : options) : world :=
  {| this := IntervalJitter callback' o;
     timers := [];
     next_handle := 1%nat;
     trace := [] |}.

(** ** Notions used in the statements *)

Definition MAXQ : Q := inject_Z 2147483647.
Definition DEFAULTQ : Q := inject_Z 1000.

(** The invariant the data model asks of the two bounds. *)
Definition bounds_ok (j : jitter) : Prop :=
  exists lo hi : Q,
    minInterval j = VNum (Fin lo) /\ maxInterval j = VNum (Fin hi) /\
    (0 <= lo)%Q /\ (lo <= hi)%Q /\ (hi <= MAXQ)%Q.

(** A finite number that is not an integer. *)
Definition fractional (q : Q) : Prop :=
  Qeq_bool (inject_Z (Qfloor q)) q = false.

(** Counting events of one kind in a trace. *)
Definition is_call (e : event) : bool :=
  match e with EvCall => true | _ => false end.
Definition is_return (e : event) : bool :=
  match e with EvReturn _ => true | _ => false end.
Definition is_throw (e : event) : bool :=
  match e with EvThrow => true | _ => false end.
Definition is_hook (e : event) : bool :=
  match e with EvHook _ => true | _ => false end.

Definition count (p : event -> bool) (t : list event) : nat :=
  length (filter p t).

(** An event that is neither the return of a callback nor a call of the
    hook. *)
Definition plain (e : event) : bool := negb (is_return e || is_hook e).

(** A trace in which every return of the callback is followed at once by
    the hook, called with the returned value, and then by the zero-delay
    [setTimeout] of the loop; and in which the hook is called nowhere
    else. *)
Inductive hook_ok : list event -> Prop :=
| hook_ok_nil : hook_ok []
| hook_ok_plain (e : event) (t : list event) :
    plain e = true -> hook_ok t -> hook_ok (e :: t)
| hook_ok_return (res : value) (h : handle) (t : list event) :
    hook_ok t ->
    hook_ok (EvReturn res :: EvHook res :: EvSetTimeout h LoopTask undefined :: t).

(** Scheduling, cancelling and the [TypeError] concern neither the callback
    nor the hook. *)
Definition quiet (e : event) : bool :=
  match e with
  | EvSetTimeout _ _ _ | EvClearTimeout _ | EvTypeError => true
  | _ => false
  end.

(** What a bound can be once a setter has stored it: a finite number
    between 0 and 2147483647, or the truthy non-number [true]. *)
Definition sane_bound (v : value) : Prop :=
  match v with
  | VNum (Fin q) => (0 <= q)%Q /\ (q <= MAXQ)%Q
  | VBool true => True
  | _ => False
  end.

(** A world whose instance has both bounds of that kind. *)
Definition sane (w : world) : Prop :=
  sane_bound (minInterval (this w)) /\ sane_bound (maxInterval (this w)).

(** A stretch of trace with the hook in its place and every call of the
    callback ended, by a return or by an exception. *)
Definition settled (t : list event) : Prop :=
  hook_ok t /\ count is_call t = (count is_return t + count is_throw t)%nat.

(** [w'] is [w] with a settled stretch added to its trace. *)
Definition advances (w w' : world) : Prop :=
  exists t, trace w' = trace w ++ t /\ settled t.

(** The host part of a world is the same in both. *)
Definition same_host (w w' : world) : Prop :=
  timers w' = timers w /\ next_handle w' = next_handle w /\ trace w' = trace w.

(** A callback that calls neither [run] nor [stop] on its receiver, and
    installs only callbacks of the same kind. *)
Fixpoint passive (c : callable) : bool :=
  match c with
  | NotCallable _ => true
  | Func body _ =>
      (fix all (cs : list call) : bool :=
         match cs with
         | [] => true
         | k :: cs' => passive_call k && all cs'
         end) body
  end
with passive_call (k : call) : bool :=
  match k with
  | CallStop | CallRun _ => false
  | CallSetMinInterval _ | CallSetMaxInterval _ => true
  | CallSetCallback c => passive c
  end.

(** Orderly use of an instance: [run] is called only on a stopped
    instance, and the callbacks are passive. *)
Definition allowed (a : action) (w : world) : bool :=
  match a with
  | Client (CallRun _) => stopped (this w)
  | Client (CallSetCallback c) => passive c
  | _ => true
  end.

Fixpoint orderly (acts : list action) (w : world) : bool :=
  match acts with
  | [] => true
  | a :: rest => allowed a w && orderly rest (step a w)
  end.

Definition is_run (a : action) : bool :=
  match a with
  | Client (CallRun _) => true
  | _ => false
  end.

(** At most one loop is alive: the only timer that can be queued is the
    one whose handle the instance holds, the wait in [outerTimeoutTimer] or
    the yield in [innerTimeoutTimer]. *)
Definition one_loop (w : world) : Prop :=
  passive (callback (this w)) = true /\ (1 <= next_handle w)%nat /\
  (timers w = [] \/
   (stopped (this w) = false /\
    exists (h : handle) (d : value), (1 <= h)%nat /\
      ((timers w = [mkTimer h OuterTask d] /\ outerTimeoutTimer (this w) = Some h) \/
       (timers w = [mkTimer h LoopTask d] /\ innerTimeoutTimer (this w) = Some h)))).

(** Every queued timer is one the instance holds the handle of. *)
Definition tracked (w : world) : Prop :=
  forall t : timer, In t (timers w) ->
    (1 <= timer_handle t)%nat /\
    (outerTimeoutTimer (this w) = Some (timer_handle t) \/
     innerTimeoutTimer (this w) = Some (timer_handle t)).

(** [w'] differs from [w] at most in the bounds and the callback. *)
Definition keeps_loop_state (w w' : world) : Prop :=
  timers w' = timers w /\ next_handle w' = next_handle w /\ trace w' = trace w /\
  stopped (this w') = stopped (this w) /\
  outerTimeoutTimer (this w') = outerTimeoutTimer (this w) /\
  innerTimeoutTimer (this w') = innerTimeoutTimer (this w).

(** A callback that does nothing to its receiver and returns 7. *)
Definition demo_callback : callable := Func [] (Return (num 7)).

Definition default_instance : jitter := IntervalJitter demo_callback no_options.


(** One of the values the two setters treat as no value at all. *)
Definition no_bound (v : value) : Prop :=
  v = undefined \/ v = null \/ v = VBool false \/ v = VNum NaN.


(** An event of the timer queue: a [setTimeout] or a [clearTimeout]. *)
Definition timer_event (e : event) : bool :=
  match e with
  | EvSetTimeout _ _ _ | EvClearTimeout _ => true
  | _ => false
  end.

(** The trace of [w'] is the trace of [w] followed by timer events only. *)
Definition only_timer_events (w w' : world) : Prop :=
  exists t, trace w' = trace w ++ t /\ forallb timer_event t = true.

(** Whether [clear_if_set o] leaves the timer [t] in the queue. *)
Definition survives (o : option handle) (t : timer) : bool :=
  match o with
  | Some h => Nat.eqb h 0 || negb (Nat.eqb (timer_handle t) h)
  | None => true
  end.


(** A call of one of the two setters of the bounds. *)
Definition bound_setter (k : call) : bool :=
  match k with
  | CallSetMinInterval _ | CallSetMaxInterval _ => true
  | _ => false
  end.

Definition is_stop (k : call) : bool :=
  match k with
  | CallStop => true
  | _ => false
  end.


(** A callback body that calls [stop()] on its receiver at least once, and
    besides that sets bounds at most. *)
Definition stops_itself (body : list call) : bool :=
  forallb (fun k => bound_setter k || is_stop k) body && existsb is_stop body.

(** The host runs its next task: the oldest queued timer fires. *)
Definition tick (r : Q) (w : world) : world :=
  match timers w with
  | t :: _ => fire (timer_handle t) r w
  | [] => w
  end.

Definition ticks (rs : list Q) (w : world) : world :=
  fold_left (fun w r => tick r w) rs w.

(** The two states of a live loop with callback [c]: the wait is queued, or
    the yield is. *)
Definition waiting (c : callable) (w : world) : Prop :=
  callback (this w) = c /\ stopped (this w) = false /\
  exists (h : handle) (d : value), timers w = [mkTimer h OuterTask d].

Definition yielding (c : callable) (w : world) : Prop :=
  callback (this w) = c /\ stopped (this w) = false /\
  exists (h : handle) (d : value), timers w = [mkTimer h LoopTask d].

(** * Properties *)

(** ** Comparisons *)

Lemma Qltb_true (x y : Q) : Qltb x y = true <-> (x < y)%Q.
Proof.
  unfold Qltb. rewrite negb_true_iff.
  split; intro H.
  - apply Qnot_le_lt. intro L. apply Qle_bool_iff in L. congruence.
  - destruct (Qle_bool y x) eqn:E; [|reflexivity].
    apply Qle_bool_iff in E. exfalso. exact (Qlt_not_le _ _ H E).
Qed.

Lemma Qltb_false (x y : Q) : Qltb x y = false <-> (y <= x)%Q.
Proof.
  unfold Qltb. rewrite negb_false_iff. apply Qle_bool_iff.
Qed.

(** The test of [setMinInterval] on a finite number against a finite
    current maximum: the falsy guard never fires (0 is let through by
    [!== 0], any other finite number is truthy). *)
Lemma setMinInterval_finite (this : jitter) (q hi : Q) :
  maxInterval this = VNum (Fin hi) ->
  setMinInterval this (VNum (Fin q)) =
    if Qltb q 0%Q || Qltb MAXQ q || Qltb hi q
    then with_minInterval (num 0) this
    else with_minInterval (VNum (Fin q)) this.
Proof.
  intro Hmax. unfold setMinInterval. rewrite Hmax.
  unfold strict_neq, js_not, js_lt, js_gt; cbn -[Qltb Qeq_bool].
  destruct (Qeq_bool q (inject_Z 0)) eqn:E.
  - change (inject_Z 0) with 0%Q in E. rewrite E. reflexivity.
  - change (inject_Z 0) with 0%Q in E. rewrite E. reflexivity.
Qed.

Lemma setMaxInterval_finite (this : jitter) (q lo : Q) :
  minInterval this = VNum (Fin lo) ->
  setMaxInterval this (VNum (Fin q)) =
    if Qltb q 0%Q || Qltb q lo
    then with_maxInterval INTERVAL_JITTER_DEFAULT_MAX_INTERVAL this
    else if Qltb MAXQ q
    then with_maxInterval INTERVAL_JITTER_MAX_INTERVAL this
    else with_maxInterval (VNum (Fin q)) this.
Proof.
  intro Hmin. unfold setMaxInterval. rewrite Hmin.
  unfold strict_neq, js_not, js_lt, js_gt; cbn -[Qltb Qeq_bool].
  destruct (Qeq_bool q (inject_Z 0)) eqn:E.
  - change (inject_Z 0) with 0%Q in E. rewrite E. reflexivity.
  - change (inject_Z 0) with 0%Q in E. rewrite E. reflexivity.
Qed.

(** ** Fields a setter leaves alone *)

Lemma setMinInterval_as_update (this : jitter) (v : value) :
  exists v', setMinInterval this v = with_minInterval v' this.
Proof.
  unfold setMinInterval.
  match goal with |- context [if ?c then _ else _] => destruct c end; eauto.
Qed.

Lemma setMaxInterval_as_update (this : jitter) (v : value) :
  exists v', setMaxInterval this v = with_maxInterval v' this.
Proof.
  unfold setMaxInterval.
  repeat match goal with |- context [if ?c then _ else _] => destruct c end; eauto.
Qed.

Lemma setCallback_as_update (this : jitter) (c : callable) :
  setCallback this c = this \/ setCallback this c = with_callback c this.
Proof.
  unfold setCallback. destruct (is_function c); auto.
Qed.

(** ** The setters on numbers *)

Section MinInterval.

Variables (this : jitter) (hi : Q).
Hypothesis Hmax : maxInterval this = VNum (Fin hi).

Lemma setMinInterval_in_range (q : Q) :
  (0 <= q)%Q -> (q <= hi)%Q -> (q <= MAXQ)%Q ->
  minInterval (setMinInterval this (VNum (Fin q))) = VNum (Fin q).
Proof.
  intros H0 H1 H2. rewrite (setMinInterval_finite _ q Hmax).
  apply Qltb_false in H0, H1, H2. rewrite H0, H1, H2. reflexivity.
Qed.

Lemma setMinInterval_out_of_range (q : Q) :
  (q < 0)%Q \/ (hi < q)%Q \/ (MAXQ < q)%Q ->
  minInterval (setMinInterval this (VNum (Fin q))) = num 0.
Proof.
  intros H. rewrite (setMinInterval_finite _ q Hmax).
  destruct H as [H | [H | H]]; apply Qltb_true in H; rewrite H;
    rewrite ?orb_true_r; reflexivity.
Qed.

End MinInterval.

Lemma setMinInterval_not_finite (this : jitter) (n : number) :
  n = NaN \/ n = PosInf \/ n = NegInf ->
  minInterval (setMinInterval this (VNum n)) = num 0.
Proof.
  intros [-> | [-> | ->]]; reflexivity.
Qed.

Lemma setMinInterval_falsy (this : jitter) (v : value) :
  v = undefined \/ v = null \/ v = VBool false ->
  minInterval (setMinInterval this v) = num 0.
Proof.
  intros [-> | [-> | ->]]; reflexivity.
Qed.

Section MaxInterval.

Variables (this : jitter) (lo : Q).
Hypothesis Hmin : minInterval this = VNum (Fin lo).
Hypothesis Hlo : (0 <= lo)%Q.

Lemma setMaxInterval_in_range (q : Q) :
  (lo <= q)%Q -> (q <= MAXQ)%Q ->
  maxInterval (setMaxInterval this (VNum (Fin q))) = VNum (Fin q).
Proof.
  intros H1 H2. rewrite (setMaxInterval_finite _ q Hmin).
  assert (H0 : (0 <= q)%Q) by (eapply Qle_trans; eassumption).
  apply Qltb_false in H0, H1, H2. rewrite H0, H1, H2. reflexivity.
Qed.

Lemma setMaxInterval_above_cap (q : Q) :
  (MAXQ < q)%Q -> (lo <= q)%Q ->
  maxInterval (setMaxInterval this (VNum (Fin q))) = INTERVAL_JITTER_MAX_INTERVAL.
Proof.
  intros H2 H1. rewrite (setMaxInterval_finite _ q Hmin).
  assert (H0 : (0 <= q)%Q) by (eapply Qle_trans; eassumption).
  apply Qltb_false in H0, H1. apply Qltb_true in H2.
  rewrite H0, H1, H2. reflexivity.
Qed.

Lemma setMaxInterval_infinity :
  maxInterval (setMaxInterval this (VNum PosInf)) = INTERVAL_JITTER_MAX_INTERVAL.
Proof.
  unfold setMaxInterval. rewrite Hmin. reflexivity.
Qed.

Lemma setMaxInterval_too_small (q : Q) :
  (q < 0)%Q \/ (q < lo)%Q ->
  maxInterval (setMaxInterval this (VNum (Fin q))) = INTERVAL_JITTER_DEFAULT_MAX_INTERVAL.
Proof.
  intros H. rewrite (setMaxInterval_finite _ q Hmin).
  destruct H as [H | H]; apply Qltb_true in H; rewrite H;
    rewrite ?orb_true_r; reflexivity.
Qed.

End MaxInterval.

Lemma setMaxInterval_not_a_bound (this : jitter) (n : number) :
  n = NaN \/ n = NegInf ->
  maxInterval (setMaxInterval this (VNum n)) = INTERVAL_JITTER_DEFAULT_MAX_INTERVAL.
Proof.
  intros [-> | ->]; reflexivity.
Qed.

Lemma setMaxInterval_falsy (this : jitter) (v : value) :
  v = undefined \/ v = null \/ v = VBool false ->
  maxInterval (setMaxInterval this v) = INTERVAL_JITTER_DEFAULT_MAX_INTERVAL.
Proof.
  intros [-> | [-> | ->]]; reflexivity.
Qed.

(** ** What the constructor stores *)

Lemma setMinInterval_callback (this : jitter) (v : value) :
  callback (setMinInterval this v) = callback this.
Proof.
  destruct (setMinInterval_as_update this v) as [v' ->]. reflexivity.
Qed.

Lemma setMaxInterval_callback (this : jitter) (v : value) :
  callback (setMaxInterval this v) = callback this.
Proof.
  destruct (setMaxInterval_as_update this v) as [v' ->]. reflexivity.
Qed.

(** ** What the setters keep of the invariant *)

Lemma setMinInterval_sane (this : jitter) (v : value) :
  sane_bound (minInterval (setMinInterval this v)).
Proof.
  assert (Z : sane_bound (num 0)) by (split; unfold Qle; simpl; lia).
  unfold setMinInterval.
  match goal with |- context [if ?c then _ else _] => destruct c eqn:G end;
    [exact Z|].
  cbn [minInterval with_minInterval].
  apply orb_false_iff in G. destruct G as [G _].
  apply orb_false_iff in G. destruct G as [G Hmax].
  apply orb_false_iff in G. destruct G as [G Hneg].
  destruct v as [| | [|] | [| | | q]]; try discriminate; try exact I.
  split; [now apply Qltb_false in Hneg | now apply Qltb_false in Hmax].
Qed.

Lemma setMaxInterval_sane (this : jitter) (v : value) :
  sane_bound (maxInterval (setMaxInterval this v)).
Proof.
  assert (D : sane_bound INTERVAL_JITTER_DEFAULT_MAX_INTERVAL)
    by (split; unfold Qle; simpl; lia).
  assert (M : sane_bound INTERVAL_JITTER_MAX_INTERVAL)
    by (split; unfold Qle; simpl; lia).
  unfold setMaxInterval.
  match goal with |- context [if ?c then _ else _] => destruct c eqn:G end;
    [exact D|].
  destruct (js_gt v INTERVAL_JITTER_MAX_INTERVAL) eqn:Hmax; [exact M|].
  cbn [maxInterval with_maxInterval].
  apply orb_false_iff in G. destruct G as [G _].
  apply orb_false_iff in G. destruct G as [G Hneg].
  destruct v as [| | [|] | [| | | q]]; try discriminate; try exact I.
  split; [now apply Qltb_false in Hneg | now apply Qltb_false in Hmax].
Qed.


(** [setMaxInterval] keeps the invariant as long as the current minimum
    does not exceed the default 1000 it may fall back to. *)
Lemma setMaxInterval_bounds_ok (this : jitter) (lo : Q) (v : value) :
  minInterval this = VNum (Fin lo) -> (0 <= lo)%Q -> (lo <= DEFAULTQ)%Q ->
  v <> VBool true ->
  bounds_ok (setMaxInterval this v).
Proof.
  intros Hmin H0 H1 Hv.
  assert (D : bounds_ok (with_maxInterval INTERVAL_JITTER_DEFAULT_MAX_INTERVAL this)).
  { exists lo, DEFAULTQ. repeat split; try assumption. unfold Qle; simpl; lia. }
  destruct v as [| | [|] | [| | | q]]; try exact D; try congruence.
  - unfold setMaxInterval. rewrite Hmin. cbn.
    exists lo, MAXQ. repeat split; try assumption; [| apply Qle_refl].
    eapply Qle_trans; [exact H1 | unfold Qle; simpl; lia].
  - rewrite (setMaxInterval_finite _ q Hmin).
    destruct (Qltb q 0) eqn:A; [exact D|].
    destruct (Qltb q lo) eqn:B; [exact D|]. cbn [orb].
    apply Qltb_false in B.
    destruct (Qltb MAXQ q) eqn:C.
    + apply Qltb_true in C. exists lo, MAXQ.
      repeat split; try assumption; [| apply Qle_refl].
      eapply Qle_trans; [exact H1 | unfold Qle; simpl; lia].
    + apply Qltb_false in C. exists lo, q. repeat split; assumption.
Qed.

(** ** The claims on the setters and the constructor *)

(** C1, at the inputs where the code leaves the invariant
    [0 <= minInterval <= maxInterval <= 2147483647]:
    [new IntervalJitter(cb, { minInterval: 5000 })] tests the minimum
    against a [maxInterval] that is not assigned yet, keeps 5000, and then
    sets the default maximum 1000 below it; and from the instance built with
    [{ minInterval: 5000, maxInterval: 6000 }], which satisfies the
    invariant, [setMaxInterval(3000)] resets the maximum to 1000, again
    below the minimum 5000. *)
Theorem bounds_invariant_broken :
  (let j := IntervalJitter demo_callback (mkOptions (num 5000) undefined) in
   minInterval j = num 5000 /\ maxInterval j = num 1000 /\ ~ bounds_ok j)
  /\
  (let j := IntervalJitter demo_callback (mkOptions (num 5000) (num 6000)) in
   bounds_ok j /\
   minInterval (setMaxInterval j (num 3000)) = num 5000 /\
   maxInterval (setMaxInterval j (num 3000)) = num 1000 /\
   ~ bounds_ok (setMaxInterval j (num 3000))).
Proof.
  split; cbv zeta.
  - repeat split; try reflexivity.
    intros (lo & hi & Hlo & Hhi & _ & Hle & _).
    vm_compute in Hlo, Hhi. injection Hlo as <-. injection Hhi as <-.
    revert Hle. unfold Qle; simpl. lia.
  - repeat split; try reflexivity.
    + exists (inject_Z 5000), (inject_Z 6000).
      repeat split; try reflexivity; unfold Qle; simpl; lia.
    + intros (lo & hi & Hlo & Hhi & _ & Hle & _).
      vm_compute in Hlo, Hhi. injection Hlo as <-. injection Hhi as <-.
      revert Hle. unfold Qle; simpl. lia.
Qed.

(** C2, counterexample: [setMinInterval(true)] on a default instance.  The
    argument is not a number, it is truthy and no comparison rejects it
    ([true] compares as 1), so [true] itself is stored, not 0. *)
Lemma setMinInterval_true_is_stored :
  minInterval (setMinInterval default_instance (VBool true)) = VBool true
  /\ strict_eq (VBool true) (num 0) = false.
Proof. split; reflexivity. Qed.

(** C2, amended: on an instance whose current maximum is the finite number
    [hi], [setMinInterval(v)] stores a number [v] with [0 <= v <= hi] and
    [v <= 2147483647] as it is, and stores 0 for a number outside that
    range, for [NaN] and the infinities, and for the falsy non-numbers
    [undefined] (a missing argument), [null] and [false].  The setter is a
    total function: it does not raise. *)
Theorem setMinInterval_numbers_and_missing (this : jitter) (hi : Q) :
  maxInterval this = VNum (Fin hi) ->
  (forall q : Q, (0 <= q)%Q -> (q <= hi)%Q -> (q <= MAXQ)%Q ->
     minInterval (setMinInterval this (VNum (Fin q))) = VNum (Fin q))
  /\ (forall q : Q, (q < 0)%Q \/ (hi < q)%Q \/ (MAXQ < q)%Q ->
     minInterval (setMinInterval this (VNum (Fin q))) = num 0)
  /\ (forall n : number, n = NaN \/ n = PosInf \/ n = NegInf ->
     minInterval (setMinInterval this (VNum n)) = num 0)
  /\ (forall v : value, v = undefined \/ v = null \/ v = VBool false ->
     minInterval (setMinInterval this v) = num 0).
Proof.
  intro Hmax. repeat split.
  - intros q. now apply setMinInterval_in_range.
  - intros q. now apply setMinInterval_out_of_range.
  - apply setMinInterval_not_finite.
  - apply setMinInterval_falsy.
Qed.

Lemma setMinInterval_numbers_and_missing_witness :
  minInterval (setMinInterval default_instance (VNum (Fin (5 # 2)))) = VNum (Fin (5 # 2))
  /\ minInterval (setMinInterval default_instance (num 1001)) = num 0
  /\ minInterval (setMinInterval default_instance (VNum NaN)) = num 0
  /\ minInterval (setMinInterval default_instance undefined) = num 0.
Proof.
  destruct (@setMinInterval_numbers_and_missing default_instance DEFAULTQ eq_refl)
    as (Hin & Hout & Hnan & Hmiss).
  split; [| split; [| split]].
  - apply Hin; unfold Qle; simpl; lia.
  - apply Hout. right; left. unfold Qlt; simpl; lia.
  - apply Hnan. left; reflexivity.
  - apply Hmiss. left; reflexivity.
Defined.

(** C3, counterexample: [setMaxInterval(true)] on a default instance stores
    [true], not the default 1000. *)
Lemma setMaxInterval_true_is_stored :
  maxInterval (setMaxInterval default_instance (VBool true)) = VBool true
  /\ strict_eq (VBool true) INTERVAL_JITTER_DEFAULT_MAX_INTERVAL = false.
Proof. split; reflexivity. Qed.

(** C3, amended: on an instance whose current minimum is the finite number
    [lo >= 0], [setMaxInterval(v)] stores a number [v] with
    [lo <= v <= 2147483647] as it is, stores 2147483647 for a number
    [v > 2147483647] (with [v >= lo]; [Infinity] included), and stores the
    default 1000 for a number that is negative or below [lo], for [NaN]
    and [-Infinity], and for the falsy non-numbers [undefined] (a missing
    argument), [null] and [false].  The setter is a total function: it does
    not raise. *)
Theorem setMaxInterval_numbers_and_missing (this : jitter) (lo : Q) :
  minInterval this = VNum (Fin lo) -> (0 <= lo)%Q ->
  (forall q : Q, (lo <= q)%Q -> (q <= MAXQ)%Q ->
     maxInterval (setMaxInterval this (VNum (Fin q))) = VNum (Fin q))
  /\ (forall q : Q, (MAXQ < q)%Q -> (lo <= q)%Q ->
     maxInterval (setMaxInterval this (VNum (Fin q))) = INTERVAL_JITTER_MAX_INTERVAL)
  /\ maxInterval (setMaxInterval this (VNum PosInf)) = INTERVAL_JITTER_MAX_INTERVAL
  /\ (forall q : Q, (q < 0)%Q \/ (q < lo)%Q ->
     maxInterval (setMaxInterval this (VNum (Fin q))) = INTERVAL_JITTER_DEFAULT_MAX_INTERVAL)
  /\ (forall n : number, n = NaN \/ n = NegInf ->
     maxInterval (setMaxInterval this (VNum n)) = INTERVAL_JITTER_DEFAULT_MAX_INTERVAL)
  /\ (forall v : value, v = undefined \/ v = null \/ v = VBool false ->
     maxInterval (setMaxInterval this v) = INTERVAL_JITTER_DEFAULT_MAX_INTERVAL).
Proof.
  intros Hmin Hlo. repeat split.
  - intros q. now apply setMaxInterval_in_range.
  - intros q. now apply setMaxInterval_above_cap.
  - now apply setMaxInterval_infinity with (lo := lo).
  - intros q. now apply setMaxInterval_too_small.
  - apply setMaxInterval_not_a_bound.
  - apply setMaxInterval_falsy.
Qed.

Lemma setMaxInterval_numbers_and_missing_witness :
  let j := setMinInterval default_instance (num 100) in
  maxInterval (setMaxInterval j (VNum (Fin (401 # 4)))) = VNum (Fin (401 # 4))
  /\ maxInterval (setMaxInterval j (num 4294967296)) = num 2147483647
  /\ maxInterval (setMaxInterval j (num 50)) = num 1000
  /\ maxInterval (setMaxInterval j undefined) = num 1000.
Proof.
  cbv zeta.
  assert (H0 : (0 <= inject_Z 100)%Q) by (unfold Qle; simpl; lia).
  destruct (@setMaxInterval_numbers_and_missing
              (setMinInterval default_instance (num 100)) (inject_Z 100) eq_refl H0)
    as (Hin & Hcap & _ & Hlow & _ & Hmiss).
  split; [| split; [| split]].
  - apply Hin; unfold Qle; simpl; lia.
  - apply Hcap; [unfold Qlt | unfold Qle]; simpl; lia.
  - apply Hlow. right. unfold Qlt; simpl; lia.
  - apply Hmiss. left; reflexivity.
Defined.

(** C5, counterexample: constructed with the number 5 as callback, the
    instance holds 5 in [callback]; nothing stands in for it, and when the
    first timer fires the call [this.callback.call(this)] raises a
    [TypeError] instead of doing nothing: no hook, no next iteration. *)
Lemma constructor_keeps_non_function :
  callback (IntervalJitter (NotCallable (num 5)) no_options) = NotCallable (num 5)
  /\ (let w := exec [Client (CallRun (1 # 2)%Q); Fire 1%nat 0%Q]
                    (new_world (NotCallable (num 5)) no_options) in
      trace w = [EvSetTimeout 1%nat OuterTask (num 500); EvTypeError]
      /\ timers w = []).
Proof. repeat split. Qed.

(** C5, amended: the constructor stores the callback argument as it is
    given, whether it is a function or not; only [setCallback] tests for a
    function. *)
Theorem constructor_stores_callback_verbatim (c : callable) (o : options) :
  callback (IntervalJitter c o) = c.
Proof.
  unfold IntervalJitter; cbv zeta.
  cbn [callback with_innerTimeoutTimer with_outerTimeoutTimer].
  rewrite setMaxInterval_callback, setMinInterval_callback. reflexivity.
Qed.

(** C7: [setCallback(x)] leaves the instance as it is when [x] is not a
    function, and replaces the stored callback by [x], changing nothing
    else, when it is. *)
Theorem setCallback_only_functions (this : jitter) (x : callable) :
  (is_function x = false -> setCallback this x = this)
  /\ (is_function x = true ->
      callback (setCallback this x) = x /\ setCallback this x = with_callback x this).
Proof.
  unfold setCallback. split; intros ->; auto.
Qed.

(** C10: a finite number that is not an integer and passes the range tests
    of a setter is stored as it is: [setMinInterval(v)] for
    [0 <= v <= maxInterval] (and [v <= 2147483647]), [setMaxInterval(v)]
    for [0 <= minInterval <= v <= 2147483647]. *)
Theorem setters_store_fractions_verbatim (this : jitter) (q : Q) :
  fractional q ->
  (forall hi : Q, maxInterval this = VNum (Fin hi) ->
     (0 <= q)%Q -> (q <= hi)%Q -> (q <= MAXQ)%Q ->
     minInterval (setMinInterval this (VNum (Fin q))) = VNum (Fin q))
  /\ (forall lo : Q, minInterval this = VNum (Fin lo) ->
     (0 <= lo)%Q -> (lo <= q)%Q -> (q <= MAXQ)%Q ->
     maxInterval (setMaxInterval this (VNum (Fin q))) = VNum (Fin q)).
Proof.
  intros _. split.
  - intros hi Hmax. now apply setMinInterval_in_range.
  - intros lo Hmin Hlo. now apply setMaxInterval_in_range with (lo := lo).
Qed.

Lemma setters_store_fractions_verbatim_witness :
  fractional (1 # 2)
  /\ minInterval (setMinInterval default_instance (VNum (Fin (1 # 2)))) = VNum (Fin (1 # 2))
  /\ maxInterval (setMaxInterval default_instance (VNum (Fin (1 # 2)))) = VNum (Fin (1 # 2)).
Proof.
  assert (F : fractional (1 # 2)) by reflexivity.
  destruct (@setters_store_fractions_verbatim default_instance (1 # 2)%Q F) as (Hmin & Hmax).
  split; [exact F | split].
  - apply (Hmin DEFAULTQ eq_refl); unfold Qle; simpl; lia.
  - apply (Hmax (inject_Z 0) eq_refl); unfold Qle; simpl; lia.
Defined.

(** ** The drawn delay *)

Lemma draw_finite (j : jitter) (lo hi r : Q) :
  minInterval j = VNum (Fin lo) -> maxInterval j = VNum (Fin hi) ->
  draw j r = VNum (Fin (inject_Z (Qfloor (r * (hi + - lo + 1))) + lo)%Q).
Proof.
  intros Hmin Hmax. unfold draw. rewrite Hmin, Hmax. reflexivity.
Qed.

Lemma floor_of_scaled (r n : Q) :
  (0 <= r)%Q -> (r < 1)%Q -> (0 < n)%Q ->
  0 <= Qfloor (r * n) /\ (inject_Z (Qfloor (r * n)) < n)%Q.
Proof.
  intros Hr0 Hr1 Hn. split.
  - change 0 with (Qfloor 0%Q). apply Qfloor_resp_le.
    apply Qmult_le_0_compat; [assumption | now apply Qlt_le_weak].
  - eapply Qle_lt_trans; [apply Qfloor_le|].
    setoid_replace n with (1 * n)%Q at 2 by (now rewrite Qmult_1_l).
    now apply Qmult_lt_compat_r.
Qed.

(** With finite bounds [lo <= hi], whatever their fractional parts, the
    delay is [lo] plus a non-negative integer and stays below [hi + 1]. *)
Lemma draw_below_max_plus_one (j : jitter) (lo hi r : Q) :
  minInterval j = VNum (Fin lo) -> maxInterval j = VNum (Fin hi) ->
  (lo <= hi)%Q -> (0 <= r)%Q -> (r < 1)%Q ->
  exists (q : Q) (k : Z),
    draw j r = VNum (Fin q) /\ (q == inject_Z k + lo)%Q /\ 0 <= k /\
    (lo <= q)%Q /\ (q < hi + 1)%Q.
Proof.
  intros Hmin Hmax Hle Hr0 Hr1.
  assert (Hn : (0 < hi + - lo + 1)%Q).
  { apply Qlt_le_trans with (y := 1%Q); [reflexivity|].
    setoid_replace 1%Q with (0 + 1)%Q at 1 by reflexivity.
    apply Qplus_le_compat; [|apply Qle_refl].
    now rewrite <- Qle_minus_iff. }
  destruct (floor_of_scaled Hr0 Hr1 Hn) as [Hk0 Hk1].
  eexists _, (Qfloor (r * (hi + - lo + 1))).
  split; [exact (@draw_finite j lo hi r Hmin Hmax)|].
  split; [reflexivity|]. split; [assumption|]. split.
  - setoid_replace lo with (0 + lo)%Q at 1 by (now rewrite Qplus_0_l).
    apply Qplus_le_compat; [|apply Qle_refl].
    rewrite Zle_Qle in Hk0. exact Hk0.
  - setoid_replace (hi + 1)%Q with ((hi + - lo + 1) + lo)%Q by ring.
    apply Qplus_lt_le_compat; [assumption | apply Qle_refl].
Qed.

(** C6, at the input where the drawn delay leaves the bounds: the instance
    built with [{ minInterval: 0.5, maxInterval: 1 }] has
    [0 <= minInterval <= maxInterval], both bounds being numbers the setters
    store as they are; with [Math.random()] returning 0.75 the delay is
    [floor(0.75 * 1.5) + 0.5], that is 1.5 (every operation is exact in
    binary64 at this input): not an integer, and above [maxInterval]. *)
Lemma draw_with_fractional_min :
  let j := IntervalJitter demo_callback (mkOptions (VNum (Fin (1 # 2))) (num 1)) in
  minInterval j = VNum (Fin (1 # 2)) /\ maxInterval j = num 1
  /\ draw j (3 # 4) = VNum (Fin (3 # 2))
  /\ js_gt (draw j (3 # 4)) (maxInterval j) = true
  /\ fractional (3 # 2).
Proof. cbv zeta. repeat split. Qed.

(** ** Frames *)

Lemma this_clear_if_set (o : option handle) (w : world) :
  this (clear_if_set o w) = this w.
Proof.
  destruct o as [h|]; [|reflexivity].
  unfold clear_if_set. destruct (Nat.eqb h 0); reflexivity.
Qed.

Lemma next_handle_clear_if_set (o : option handle) (w : world) :
  next_handle (clear_if_set o w) = next_handle w.
Proof.
  destruct o as [h|]; [|reflexivity].
  unfold clear_if_set. destruct (Nat.eqb h 0); reflexivity.
Qed.

Lemma timers_clear_if_set (o : option handle) (w : world) :
  incl (timers (clear_if_set o w)) (timers w).
Proof.
  destruct o as [h|]; [|apply incl_refl].
  unfold clear_if_set. destruct (Nat.eqb h 0); [apply incl_refl|].
  intros t Ht. cbn in Ht. apply filter_In in Ht. tauto.
Qed.

Lemma this_stop (w : world) : this (stop w) = with_stopped true (this w).
Proof.
  unfold stop. cbn. now rewrite !this_clear_if_set.
Qed.

Lemma this_loop (r : Q) (w : world) :
  callback (this (loop r w)) = callback (this w)
  /\ minInterval (this (loop r w)) = minInterval (this w)
  /\ maxInterval (this (loop r w)) = maxInterval (this w)
  /\ stopped (this (loop r w)) = stopped (this w).
Proof.
  unfold loop. destruct (stopped (this w)) eqn:E; cbn; auto.
Qed.

(** C9: each mutator writes its own property and nothing else.
    [setMinInterval], [setMaxInterval] and [setCallback] return the instance
    with at most [minInterval], [maxInterval], [callback] replaced, and leave
    the host (timers, trace) alone; [stop] returns the instance with only
    [stopped] replaced (by [true]), creates no timer and only removes
    timers from the queue; hence after [stop] and a new [run] the callback
    and the two bounds are what they were. *)
Theorem mutators_write_only_their_field (w : world) :
  (forall v : value,
     let w' := perform (CallSetMinInterval v) w in
     this w' = with_minInterval (minInterval (this w')) (this w) /\ same_host w w')
  /\ (forall v : value,
     let w' := perform (CallSetMaxInterval v) w in
     this w' = with_maxInterval (maxInterval (this w')) (this w) /\ same_host w w')
  /\ (forall c : callable,
     let w' := perform (CallSetCallback c) w in
     this w' = with_callback (callback (this w')) (this w) /\ same_host w w')
  /\ (let w' := perform CallStop w in
     this w' = with_stopped true (this w)
     /\ next_handle w' = next_handle w /\ incl (timers w') (timers w))
  /\ (forall r : Q,
     let w' := perform (CallRun r) (perform CallStop w) in
     callback (this w') = callback (this w)
     /\ minInterval (this w') = minInterval (this w)
     /\ maxInterval (this w') = maxInterval (this w)).
Proof.
  split; [|split; [|split; [|split]]]; cbv zeta.
  - intros v; split; [|repeat split].
    cbn [perform on_this this].
    destruct (setMinInterval_as_update (this w) v) as [v' ->]. now destruct (this w).
  - intros v; split; [|repeat split].
    cbn [perform on_this this].
    destruct (setMaxInterval_as_update (this w) v) as [v' ->]. now destruct (this w).
  - intros c; split; [|repeat split].
    cbn [perform on_this this].
    destruct (setCallback_as_update (this w) c) as [-> | ->]; now destruct (this w).
  - cbn [perform]. split; [apply this_stop | split].
    + unfold stop. cbn. now rewrite !next_handle_clear_if_set.
    + unfold stop. cbn. eapply incl_tran; apply timers_clear_if_set.
  - intros r. cbn [perform]. unfold run.
    destruct (this_loop r (on_this (with_stopped false) (stop w))) as (-> & -> & -> & _).
    cbn [on_this this]. rewrite this_stop. repeat split.
Qed.

(** ** Bounds of a reachable instance

    Although the full invariant can be lost, each bound taken alone is
    always either a finite number between 0 and 2147483647 or [true]. *)

Lemma sane_on_this (f : jitter -> jitter) (w : world) :
  minInterval (f (this w)) = minInterval (this w) ->
  maxInterval (f (this w)) = maxInterval (this w) ->
  sane w -> sane (on_this f w).
Proof.
  intros Hmin Hmax [A B]. split; cbn; [now rewrite Hmin | now rewrite Hmax].
Qed.

Lemma sane_same_this (w w' : world) : this w' = this w -> sane w -> sane w'.
Proof. unfold sane. now intros ->. Qed.

Lemma sane_stop (w : world) : sane w -> sane (stop w).
Proof. unfold sane. now rewrite this_stop. Qed.

Lemma sane_loop (r : Q) (w : world) : sane w -> sane (loop r w).
Proof.
  unfold sane. destruct (this_loop r w) as (_ & -> & -> & _). auto.
Qed.

Lemma sane_perform (c : call) (w : world) : sane w -> sane (perform c w).
Proof.
  intros [A B]. destruct c as [| r | v | v | c]; cbn [perform].
  - now apply sane_stop.
  - unfold run. apply sane_loop. now apply sane_on_this.
  - split; cbn; [apply setMinInterval_sane|].
    destruct (setMinInterval_as_update (this w) v) as [v' ->]. exact B.
  - split; cbn; [| apply setMaxInterval_sane].
    destruct (setMaxInterval_as_update (this w) v) as [v' ->]. exact A.
  - destruct (setCallback_as_update (this w) c) as [E | E];
      split; cbn; rewrite E; assumption.
Qed.

Lemma sane_perform_all (cs : list call) (w : world) :
  sane w -> sane (perform_all cs w).
Proof.
  revert w. induction cs as [| c cs IH]; intros w H; cbn; [assumption|].
  apply IH. now apply sane_perform.
Qed.

Lemma sane_outer_task (w : world) : sane w -> sane (outer_task w).
Proof.
  intro H. unfold outer_task. destruct (callback (this w)) as [v | body result].
  - exact H.
  - assert (K : sane (perform_all body (log EvCall w)))
      by (apply sane_perform_all; exact H).
    destruct result as [res |]; exact K.
Qed.

Lemma sane_fire (h : handle) (r : Q) (w : world) : sane w -> sane (fire h r w).
Proof.
  intro H. unfold fire. destruct (pending h w) as [t|]; [|assumption].
  destruct (timer_task t); [apply sane_outer_task | apply sane_loop]; exact H.
Qed.

Lemma sane_new_world (c : callable) (o : options) : sane (new_world c o).
Proof.
  split; cbn.
  - match goal with
    | |- sane_bound (minInterval (setMaxInterval ?j ?v)) =>
        destruct (setMaxInterval_as_update j v) as [v' ->]
    end.
    apply setMinInterval_sane.
  - apply setMaxInterval_sane.
Qed.

Lemma sane_exec (acts : list action) (w : world) : sane w -> sane (exec acts w).
Proof.
  revert w. induction acts as [| a acts IH]; intros w H; cbn; [assumption|].
  apply IH. destruct a; [now apply sane_perform | now apply sane_fire].
Qed.

(** In particular a numeric minimum is never negative, which is what the
    statements about [setMaxInterval] assume of it. *)
Lemma reachable_min_in_range (c : callable) (o : options) (acts : list action) (lo : Q) :
  minInterval (this (exec acts (new_world c o))) = VNum (Fin lo) ->
  (0 <= lo)%Q /\ (lo <= MAXQ)%Q.
Proof.
  intro E. destruct (sane_exec acts (sane_new_world c o)) as [A _].
  rewrite E in A. exact A.
Qed.

Lemma reachable_max_in_range (c : callable) (o : options) (acts : list action) (hi : Q) :
  maxInterval (this (exec acts (new_world c o))) = VNum (Fin hi) ->
  (0 <= hi)%Q /\ (hi <= MAXQ)%Q.
Proof.
  intro E. destruct (sane_exec acts (sane_new_world c o)) as [_ B].
  rewrite E in B. exact B.
Qed.

(** ** Stopping *)

Lemma stop_sets_stopped (w : world) : stopped (this (stop w)) = true.
Proof. now rewrite this_stop. Qed.

Lemma loop_when_stopped (r : Q) (w : world) :
  stopped (this w) = true -> loop r w = w.
Proof. unfold loop. now intros ->. Qed.

(** C4, at the input where the code lets the callback run after [stop()]:
    [run()] twice, then [stop()].  The second [run()] overwrites
    [outerTimeoutTimer], so [stop()] cancels timer 2 only; timer 1, set by
    the first [run()], is still queued.  When the host fires it the callback
    is called although [stopped] is [true] and no [run()] came after the
    [stop()]. *)
Theorem callback_runs_after_stop :
  let w := exec [Client (CallRun (1 # 2)); Client (CallRun (1 # 4)); Client CallStop]
                (new_world demo_callback no_options) in
  stopped (this w) = true
  /\ count is_call (trace w) = 0%nat
  /\ pending 1%nat w = Some (mkTimer 1%nat OuterTask (num 500))
  /\ (let w' := step (Fire 1%nat (3 # 4)) w in
      stopped (this w') = true /\ count is_call (trace w') = 1%nat).
Proof. cbv zeta. repeat split. Qed.

(** ** The trace: where the hook sits *)

Lemma count_app (p : event -> bool) (a b : list event) :
  count p (a ++ b) = (count p a + count p b)%nat.
Proof. unfold count. now rewrite filter_app, length_app. Qed.

Lemma count_cons (p : event -> bool) (e : event) (t : list event) :
  count p (e :: t) = ((if p e then 1 else 0) + count p t)%nat.
Proof. unfold count. cbn. now destruct (p e). Qed.

Lemma hook_ok_app (a b : list event) :
  hook_ok a -> hook_ok b -> hook_ok (a ++ b).
Proof.
  induction 1 as [| e t He _ IH | res h t _ IH]; intro Hb; cbn.
  - assumption.
  - apply hook_ok_plain; auto.
  - apply hook_ok_return; auto.
Qed.

Lemma hook_ok_counts (t : list event) :
  hook_ok t -> count is_hook t = count is_return t.
Proof.
  induction 1 as [| e t He _ IH | res h t _ IH].
  - reflexivity.
  - rewrite !count_cons, IH. unfold plain in He.
    apply negb_true_iff, orb_false_iff in He. destruct He as [-> ->]. reflexivity.
  - rewrite !count_cons, IH. reflexivity.
Qed.

Lemma settled_nil : settled [].
Proof. split; [constructor | reflexivity]. Qed.

Lemma settled_app (a b : list event) : settled a -> settled b -> settled (a ++ b).
Proof.
  intros [Ha Ca] [Hb Cb]. split.
  - now apply hook_ok_app.
  - rewrite !count_app. lia.
Qed.

Lemma settled_quiet (e : event) : quiet e = true -> settled [e].
Proof.
  intro Q. split.
  - apply hook_ok_plain; [destruct e; try discriminate; reflexivity | constructor].
  - destruct e; try discriminate; reflexivity.
Qed.

Lemma settled_thrown (t : list event) :
  settled t -> settled (EvCall :: t ++ [EvThrow]).
Proof.
  intros [H C]. split.
  - apply hook_ok_plain; [reflexivity|].
    apply hook_ok_app; [assumption|]. apply hook_ok_plain; [reflexivity | constructor].
  - rewrite !count_cons, !count_app, C. cbn. lia.
Qed.

Lemma settled_returned (t : list event) (res : value) (h : handle) :
  settled t ->
  settled (EvCall :: t ++ [EvReturn res; EvHook res; EvSetTimeout h LoopTask undefined]).
Proof.
  intros [H C]. split.
  - apply hook_ok_plain; [reflexivity|].
    apply hook_ok_app; [assumption|]. apply hook_ok_return. constructor.
  - rewrite !count_cons, !count_app, C. cbn. lia.
Qed.

Lemma advances_refl (w : world) : advances w w.
Proof. exists []. split; [now rewrite app_nil_r | apply settled_nil]. Qed.

Lemma advances_trans (w1 w2 w3 : world) :
  advances w1 w2 -> advances w2 w3 -> advances w1 w3.
Proof.
  intros (a & Ea & Sa) (b & Eb & Sb). exists (a ++ b). split.
  - now rewrite Eb, Ea, app_assoc.
  - now apply settled_app.
Qed.

Lemma advances_same_trace (w w' : world) : trace w' = trace w -> advances w w'.
Proof. intro E. exists []. split; [now rewrite app_nil_r | apply settled_nil]. Qed.

Lemma advances_on_this (f : jitter -> jitter) (w : world) : advances w (on_this f w).
Proof. now apply advances_same_trace. Qed.

Lemma advances_clear_if_set (o : option handle) (w : world) :
  advances w (clear_if_set o w).
Proof.
  destruct o as [h|]; [|apply advances_refl].
  unfold clear_if_set. destruct (Nat.eqb h 0); [apply advances_refl|].
  exists [EvClearTimeout h]. split; [reflexivity | now apply settled_quiet].
Qed.

Lemma advances_stop (w : world) : advances w (stop w).
Proof.
  unfold stop.
  eapply advances_trans; [apply advances_clear_if_set|].
  eapply advances_trans; [apply advances_clear_if_set|].
  apply advances_on_this.
Qed.

Lemma advances_loop (r : Q) (w : world) : advances w (loop r w).
Proof.
  unfold loop. destruct (stopped (this w)); [apply advances_refl|].
  eexists [_]. split; [reflexivity | now apply settled_quiet].
Qed.

Lemma advances_run (r : Q) (w : world) : advances w (run r w).
Proof.
  unfold run. eapply advances_trans; [apply advances_on_this | apply advances_loop].
Qed.

Lemma advances_perform (c : call) (w : world) : advances w (perform c w).
Proof.
  destruct c; cbn [perform].
  - apply advances_stop.
  - apply advances_run.
  - apply advances_on_this.
  - apply advances_on_this.
  - apply advances_on_this.
Qed.

Lemma advances_perform_all (cs : list call) (w : world) :
  advances w (perform_all cs w).
Proof.
  revert w. induction cs as [| c cs IH]; intro w; cbn.
  - apply advances_refl.
  - eapply advances_trans; [apply advances_perform | apply IH].
Qed.

Lemma advances_outer_task (w : world) : advances w (outer_task w).
Proof.
  unfold outer_task. destruct (callback (this w)) as [v | body result].
  - exists [EvTypeError]. split; [reflexivity | now apply settled_quiet].
  - destruct (advances_perform_all body (log EvCall w)) as (t & Et & St).
    destruct result as [res |].
    + exists (EvCall :: t ++ [EvReturn res; EvHook res;
                              EvSetTimeout (next_handle (perform_all body (log EvCall w)))
                                           LoopTask undefined]).
      split; [| now apply settled_returned].
      cbn. rewrite Et. cbn. rewrite <- !app_assoc. reflexivity.
    + exists (EvCall :: t ++ [EvThrow]).
      split; [| now apply settled_thrown].
      cbn. rewrite Et. cbn. rewrite <- !app_assoc. reflexivity.
Qed.

Lemma advances_fire (h : handle) (r : Q) (w : world) : advances w (fire h r w).
Proof.
  unfold fire. destruct (pending h w) as [t|]; [|apply advances_refl].
  destruct (timer_task t).
  - eapply advances_trans; [| apply advances_outer_task]. now apply advances_same_trace.
  - eapply advances_trans; [| apply advances_loop]. now apply advances_same_trace.
Qed.

Lemma advances_step (a : action) (w : world) : advances w (step a w).
Proof.
  destruct a; [apply advances_perform | apply advances_fire].
Qed.

Lemma advances_exec (acts : list action) (w : world) : advances w (exec acts w).
Proof.
  revert w. induction acts as [| a acts IH]; intro w; cbn.
  - apply advances_refl.
  - eapply advances_trans; [apply advances_step | apply IH].
Qed.

(** ** One loop at a time

    What does hold of [stop]: it cancels every timer whose handle the
    instance holds, and when the instance is used in an orderly way, with
    [run] called only on a stopped instance and callbacks that leave [run]
    and [stop] alone, that is every timer there is, so that no callback
    runs afterwards until [run] is called again. *)

Lemma in_clear_if_set (o : option handle) (w : world) (t : timer) :
  In t (timers (clear_if_set o w)) ->
  In t (timers w) /\
  (forall h : handle, o = Some h -> (1 <= h)%nat -> timer_handle t <> h).
Proof.
  destruct o as [h|]; cbn.
  - destruct (Nat.eqb h 0) eqn:Z.
    + intro H. split; [assumption|]. intros h' [= <-] Hpos.
      apply Nat.eqb_eq in Z. lia.
    + cbn. intro H. apply filter_In in H. destruct H as [H N].
      split; [assumption|]. intros h' [= <-] _.
      apply negb_true_iff, Nat.eqb_neq in N. exact N.
  - intro H. split; [assumption | discriminate].
Qed.

Lemma stop_cancels_tracked (w : world) : tracked w -> timers (stop w) = [].
Proof.
  intro T. destruct (timers (stop w)) as [| t l] eqn:E; [reflexivity|].
  exfalso.
  assert (H : In t (timers (stop w))) by (rewrite E; now left).
  unfold stop in H. cbn [on_this timers] in H.
  apply in_clear_if_set in H. destruct H as [H Ni].
  rewrite this_clear_if_set in Ni.
  apply in_clear_if_set in H. destruct H as [H No].
  destruct (T t H) as [Hpos [Ho | Hi]].
  - exact (No _ Ho Hpos eq_refl).
  - exact (Ni _ Hi Hpos eq_refl).
Qed.

Lemma one_loop_tracked (w : world) : one_loop w -> tracked w.
Proof.
  intros (_ & _ & [E | (_ & h & d & Hpos & [[E Ho] | [E Hi]])]) t Ht;
    rewrite E in Ht; cbn in Ht.
  - contradiction.
  - destruct Ht as [<- | []]. cbn. auto.
  - destruct Ht as [<- | []]. cbn. auto.
Qed.

Lemma passive_Func (body : list call) (result : outcome) :
  passive (Func body result) = forallb passive_call body.
Proof.
  cbn. induction body as [| k cs IH]; cbn; [reflexivity | now rewrite IH].
Qed.

Lemma keeps_loop_state_refl (w : world) : keeps_loop_state w w.
Proof. repeat split. Qed.

Lemma keeps_loop_state_trans (w1 w2 w3 : world) :
  keeps_loop_state w1 w2 -> keeps_loop_state w2 w3 -> keeps_loop_state w1 w3.
Proof.
  intros (A1 & A2 & A3 & A4 & A5 & A6) (B1 & B2 & B3 & B4 & B5 & B6).
  repeat split; congruence.
Qed.

Lemma passive_perform (k : call) (w : world) :
  passive_call k = true -> passive (callback (this w)) = true ->
  keeps_loop_state w (perform k w) /\ passive (callback (this (perform k w))) = true.
Proof.
  intros Hk Hc. destruct k as [| r | v | v | c]; try discriminate; cbn [perform].
  - destruct (setMinInterval_as_update (this w) v) as [v' E].
    unfold keeps_loop_state; cbn; rewrite E; cbn. repeat split. exact Hc.
  - destruct (setMaxInterval_as_update (this w) v) as [v' E].
    unfold keeps_loop_state; cbn; rewrite E; cbn. repeat split. exact Hc.
  - destruct (setCallback_as_update (this w) c) as [E | E];
      unfold keeps_loop_state; cbn; rewrite E; cbn; repeat split; assumption.
Qed.

Lemma passive_perform_all (body : list call) (w : world) :
  forallb passive_call body = true -> passive (callback (this w)) = true ->
  keeps_loop_state w (perform_all body w)
  /\ passive (callback (this (perform_all body w))) = true.
Proof.
  revert w. induction body as [| k cs IH]; intros w Hb Hc; cbn.
  - split; [apply keeps_loop_state_refl | assumption].
  - cbn in Hb. apply andb_true_iff in Hb. destruct Hb as [Hk Hcs].
    destruct (passive_perform k w Hk Hc) as [K1 P1].
    destruct (IH (perform k w) Hcs P1) as [K2 P2].
    split; [eapply keeps_loop_state_trans; eassumption | assumption].
Qed.

Lemma one_loop_loop (r : Q) (w : world) :
  passive (callback (this w)) = true -> (1 <= next_handle w)%nat ->
  timers w = [] -> stopped (this w) = false ->
  one_loop (loop r w).
Proof.
  intros Hc Hn Ht Hs. unfold loop. rewrite Hs. unfold one_loop. cbn.
  split; [exact Hc | split; [lia|]].
  right. split; [exact Hs|].
  exists (next_handle w), (draw (this w) r). split; [exact Hn|].
  left. rewrite Ht. split; reflexivity.
Qed.

Lemma one_loop_outer_task (w : world) :
  passive (callback (this w)) = true -> (1 <= next_handle w)%nat ->
  timers w = [] -> stopped (this w) = false ->
  one_loop (outer_task w).
Proof.
  intros Hc Hn Ht Hs. unfold outer_task.
  destruct (callback (this w)) as [v | body result] eqn:Ecb.
  - split; [cbn; now rewrite Ecb | split; [exact Hn | now left]].
  - rewrite passive_Func in Hc.
    assert (Hc0 : passive (callback (this (log EvCall w))) = true)
      by (cbn; rewrite Ecb; now rewrite passive_Func).
    destruct (passive_perform_all body (log EvCall w) Hc Hc0)
      as ((K1 & K2 & _ & K4 & _ & _) & P).
    cbn [log timers next_handle this] in K1, K2, K4.
    destruct result as [res |].
    + unfold one_loop. cbn. split; [exact P | split; [lia|]].
      right. split; [now rewrite K4|].
      exists (next_handle (perform_all body (log EvCall w))), undefined.
      split; [lia|]. right. rewrite K1, Ht. split; reflexivity.
    + unfold one_loop. cbn. split; [exact P | split; [lia|]]. left. now rewrite K1.
Qed.

Lemma one_loop_fire (h : handle) (r : Q) (w : world) :
  one_loop w -> one_loop (fire h r w).
Proof.
  intros H. pose proof H as (Hc & Hn & [Ht | (Hs & h0 & d & Hpos & [[Ht Ho] | [Ht Hi]])]);
    unfold fire, pending; rewrite Ht; cbn [find timer_handle].
  - exact H.
  - destruct (Nat.eqb h0 h) eqn:E; [|exact H]. cbn [timer_task].
    apply one_loop_outer_task; cbn; try assumption.
    rewrite Ht. cbn. now rewrite E.
  - destruct (Nat.eqb h0 h) eqn:E; [|exact H]. cbn [timer_task].
    apply one_loop_loop; cbn; try assumption.
    rewrite Ht. cbn. now rewrite E.
Qed.

Lemma one_loop_stop (w : world) : one_loop w -> one_loop (stop w).
Proof.
  intro H. pose proof (stop_cancels_tracked (one_loop_tracked H)) as E.
  destruct H as (Hc & Hn & _).
  split; [now rewrite this_stop | split; [| now left]].
  unfold stop. cbn. now rewrite !next_handle_clear_if_set.
Qed.

Lemma one_loop_step (a : action) (w : world) :
  one_loop w -> allowed a w = true -> one_loop (step a w).
Proof.
  intros H Ha. destruct a as [k | h r]; [| now apply one_loop_fire].
  destruct k as [| r | v | v | c]; cbn [step perform].
  - now apply one_loop_stop.
  - cbn in Ha. destruct H as (Hc & Hn & [Ht | (Hs & _)]); [| congruence].
    unfold run. apply one_loop_loop; [exact Hc | exact Hn | exact Ht | reflexivity].
  - destruct H as (Hc & Hn & Hl).
    destruct (setMinInterval_as_update (this w) v) as [v' E].
    unfold one_loop; cbn; rewrite E; cbn. auto.
  - destruct H as (Hc & Hn & Hl).
    destruct (setMaxInterval_as_update (this w) v) as [v' E].
    unfold one_loop; cbn; rewrite E; cbn. auto.
  - cbn in Ha. destruct H as (Hc & Hn & Hl).
    destruct (setCallback_as_update (this w) c) as [E | E];
      unfold one_loop; cbn; rewrite E; cbn; auto.
Qed.

Lemma one_loop_exec (acts : list action) (w : world) :
  one_loop w -> orderly acts w = true -> one_loop (exec acts w).
Proof.
  revert w. induction acts as [| a acts IH]; intros w H Ho; cbn; [assumption|].
  cbn in Ho. apply andb_true_iff in Ho. destruct Ho as [Ha Ho].
  apply IH; [now apply one_loop_step | assumption].
Qed.

Lemma one_loop_new_world (c : callable) (o : options) :
  passive c = true -> one_loop (new_world c o).
Proof.
  intro Hc. split; [| split; [cbn; lia | now left]].
  cbn [new_world this]. unfold IntervalJitter; cbv zeta.
  cbn [callback with_innerTimeoutTimer with_outerTimeoutTimer].
  now rewrite setMaxInterval_callback, setMinInterval_callback.
Qed.

Lemma calls_clear_if_set (o : option handle) (w : world) :
  count is_call (trace (clear_if_set o w)) = count is_call (trace w).
Proof.
  destruct o as [h|]; [|reflexivity].
  unfold clear_if_set. destruct (Nat.eqb h 0); [reflexivity|].
  unfold clearTimeout. cbn [trace]. rewrite count_app. cbn. lia.
Qed.

Lemma timers_clear_if_set_nil (o : option handle) (w : world) :
  timers w = [] -> timers (clear_if_set o w) = [].
Proof.
  intro E. apply incl_l_nil. rewrite <- E. apply timers_clear_if_set.
Qed.

(** With nothing queued, only [run] can bring the callback back. *)
Lemma quiescent_step (a : action) (w : world) :
  timers w = [] -> is_run a = false ->
  timers (step a w) = [] /\ count is_call (trace (step a w)) = count is_call (trace w).
Proof.
  intros E Ha. destruct a as [k | h r].
  - destruct k as [| r | v | v | c]; try discriminate;
      cbn [step perform on_this timers trace]; auto.
    unfold stop. cbn [on_this timers trace]. split.
    + now do 2 apply timers_clear_if_set_nil.
    + now rewrite !calls_clear_if_set.
  - cbn. unfold fire, pending. rewrite E. cbn. auto.
Qed.

Lemma quiescent_exec (acts : list action) (w : world) :
  timers w = [] -> forallb (fun a => negb (is_run a)) acts = true ->
  timers (exec acts w) = [] /\ count is_call (trace (exec acts w)) = count is_call (trace w).
Proof.
  revert w. induction acts as [| a acts IH]; intros w E Hr; [cbn; auto|].
  cbn in Hr. apply andb_true_iff in Hr. destruct Hr as [Ha Hr].
  apply negb_true_iff in Ha.
  destruct (quiescent_step a w E Ha) as [E' C'].
  destruct (IH (step a w) E' Hr) as [E'' C''].
  change (exec (a :: acts) w) with (exec acts (step a w)).
  split; [assumption | congruence].
Qed.

(** X19: what the code does keep of the promise of [stop].  When the instance
    has been used in an orderly way ([run] called only on a stopped
    instance, callbacks that call neither [run] nor [stop]), [stop()]
    leaves no timer queued and sets [stopped]; from then on, whatever
    timers the host tries to fire and whatever method other than [run] is
    called, the callback is not called. *)
Lemma stop_is_final_for_one_loop
      (c : callable) (o : options) (before after : list action) :
  passive c = true ->
  orderly before (new_world c o) = true ->
  forallb (fun a => negb (is_run a)) after = true ->
  let w := stop (exec before (new_world c o)) in
  stopped (this w) = true /\ timers w = []
  /\ count is_call (trace (exec after w)) = count is_call (trace w).
Proof.
  intros Hc Ho Hr w.
  assert (L : one_loop (exec before (new_world c o)))
    by (apply one_loop_exec; [now apply one_loop_new_world | assumption]).
  assert (E : timers w = []) by (apply stop_cancels_tracked, one_loop_tracked, L).
  split; [apply stop_sets_stopped | split; [exact E|]].
  now apply quiescent_exec.
Qed.

Lemma stop_is_final_for_one_loop_witness :
  let before := [Client (CallRun (1 # 3)); Fire 1%nat (1 # 2); Fire 2%nat (2 # 3);
                 Client (CallSetMaxInterval (num 50)); Fire 3%nat 0] in
  let after := [Fire 4%nat 0; Fire 3%nat 0; Client CallStop;
                Client (CallSetMinInterval (num 5)); Fire 4%nat 0] in
  let w := stop (exec before (new_world demo_callback no_options)) in
  stopped (this w) = true /\ timers w = []
  /\ count is_call (trace (exec after w)) = count is_call (trace w).
Proof.
  exact (@stop_is_final_for_one_loop demo_callback no_options
           [Client (CallRun (1 # 3)); Fire 1%nat (1 # 2); Fire 2%nat (2 # 3);
            Client (CallSetMaxInterval (num 50)); Fire 3%nat 0%Q]
           [Fire 4%nat 0%Q; Fire 3%nat 0%Q; Client CallStop;
            Client (CallSetMinInterval (num 5)); Fire 4%nat 0%Q]
           eq_refl eq_refl eq_refl).
Defined.

(** Three iterations of a loop with [minInterval == maxInterval == 100],
    then [stop()]: three calls of the callback, each delay 100, and none
    after the stop whichever handle the host tries. *)
Example three_calls_then_stop :
  let o := mkOptions (num 100) (num 100) in
  let before := [Client (CallRun (1 # 3)); Fire 1%nat (1 # 2); Fire 2%nat (2 # 3);
                 Fire 3%nat 0; Fire 4%nat (1 # 5); Fire 5%nat (1 # 7)] in
  let after := [Fire 5%nat 0; Fire 6%nat 0; Fire 7%nat 0; Client CallStop; Fire 6%nat 0] in
  let w := stop (exec before (new_world demo_callback o)) in
  orderly before (new_world demo_callback o) = true
  /\ count is_call (trace w) = 3%nat
  /\ count is_call (trace (exec after w)) = 3%nat
  /\ filter (fun e => match e with EvSetTimeout _ OuterTask _ => true | _ => false end)
            (trace w)
     = [EvSetTimeout 1%nat OuterTask (num 100);
        EvSetTimeout 3%nat OuterTask (num 100);
        EvSetTimeout 5%nat OuterTask (num 100)].
Proof. cbv zeta. repeat split. Qed.

(** * Further properties *)

(** ** The constructor on its options *)

Lemma setMinInterval_min_congr (j j' : jitter) (v : value) :
  maxInterval j = maxInterval j' ->
  minInterval (setMinInterval j v) = minInterval (setMinInterval j' v).
Proof.
  intro E. unfold setMinInterval. rewrite E.
  match goal with |- context [if ?c then _ else _] => destruct c end; reflexivity.
Qed.

Lemma setMaxInterval_max_congr (j j' : jitter) (v : value) :
  minInterval j = minInterval j' ->
  maxInterval (setMaxInterval j v) = maxInterval (setMaxInterval j' v).
Proof.
  intro E. unfold setMaxInterval. rewrite E.
  repeat match goal with |- context [if ?c then _ else _] => destruct c end;
    reflexivity.
Qed.

Lemma setMinInterval_eq (j : jitter) (v : value) :
  setMinInterval j v = with_minInterval (minInterval (setMinInterval j v)) j.
Proof.
  destruct (setMinInterval_as_update j v) as [v' ->]. reflexivity.
Qed.

Lemma setMaxInterval_eq (j : jitter) (v : value) :
  setMaxInterval j v = with_maxInterval (maxInterval (setMaxInterval j v)) j.
Proof.
  destruct (setMaxInterval_as_update j v) as [v' ->]. reflexivity.
Qed.

Lemma setMaxInterval_min (j : jitter) (v : value) :
  minInterval (setMaxInterval j v) = minInterval j.
Proof.
  destruct (setMaxInterval_as_update j v) as [v' ->]. reflexivity.
Qed.

Lemma setMinInterval_max (j : jitter) (v : value) :
  maxInterval (setMinInterval j v) = maxInterval j.
Proof.
  destruct (setMinInterval_as_update j v) as [v' ->]. reflexivity.
Qed.

(** The minimum the constructor ends with is the one [setMinInterval]
    computes on an object that has no [maxInterval] yet. *)
Lemma constructor_min (c : callable) (vmin vmax : value) :
  minInterval (IntervalJitter c (mkOptions vmin vmax)) =
  minInterval (setMinInterval fresh_object (or_default vmin (num 0))).
Proof.
  unfold IntervalJitter; cbv zeta.
  cbn [opt_minInterval opt_maxInterval minInterval
       with_innerTimeoutTimer with_outerTimeoutTimer].
  rewrite setMaxInterval_min. now apply setMinInterval_min_congr.
Qed.

Lemma constructor_max (c : callable) (vmin vmax : value) :
  maxInterval (IntervalJitter c (mkOptions vmin vmax)) =
  maxInterval (setMaxInterval
                 (setMinInterval fresh_object (or_default vmin (num 0)))
                 (or_default vmax INTERVAL_JITTER_DEFAULT_MAX_INTERVAL)).
Proof.
  unfold IntervalJitter; cbv zeta.
  cbn [opt_minInterval opt_maxInterval maxInterval
       with_innerTimeoutTimer with_outerTimeoutTimer].
  apply setMaxInterval_max_congr. now apply setMinInterval_min_congr.
Qed.

(** With [maxInterval] still unassigned the test [minInterval > this.maxInterval]
    is false for every number: only the range [0, 2147483647] is checked. *)
Lemma fresh_min_finite (q : Q) :
  minInterval (setMinInterval fresh_object (VNum (Fin q))) =
  if Qltb q 0%Q || Qltb MAXQ q then num 0 else VNum (Fin q).
Proof.
  unfold setMinInterval, strict_neq, js_not, js_lt, js_gt.
  cbn -[Qltb Qeq_bool].
  change (inject_Z 0) with 0%Q. change (inject_Z 2147483647) with MAXQ.
  destruct (Qeq_bool q 0); cbn [negb andb orb];
    destruct (Qltb q 0); destruct (Qltb MAXQ q); reflexivity.
Qed.

Lemma constructor_min_finite (c : callable) (lo : Q) (vmax : value) :
  minInterval (IntervalJitter c (mkOptions (VNum (Fin lo)) vmax)) =
  if Qltb lo 0%Q || Qltb MAXQ lo then num 0 else VNum (Fin lo).
Proof.
  rewrite constructor_min. cbn [or_default]. apply fresh_min_finite.
Qed.

Lemma constructor_max_finite (c : callable) (lo hi m : Q) :
  minInterval (IntervalJitter c (mkOptions (VNum (Fin lo)) (VNum (Fin hi)))) = VNum (Fin m) ->
  maxInterval (IntervalJitter c (mkOptions (VNum (Fin lo)) (VNum (Fin hi)))) =
  if Qltb hi 0%Q || Qltb hi m then INTERVAL_JITTER_DEFAULT_MAX_INTERVAL
  else if Qltb MAXQ hi then INTERVAL_JITTER_MAX_INTERVAL
  else VNum (Fin hi).
Proof.
  rewrite constructor_min, constructor_max. cbn [or_default]. intro Hm.
  rewrite (setMaxInterval_finite _ hi Hm).
  destruct (Qltb hi 0 || Qltb hi m); [reflexivity|].
  destruct (Qltb MAXQ hi); reflexivity.
Qed.

Lemma bounds_ok_finite (j : jitter) (a b : Q) :
  minInterval j = VNum (Fin a) -> maxInterval j = VNum (Fin b) ->
  (bounds_ok j <-> (0 <= a)%Q /\ (a <= b)%Q /\ (b <= MAXQ)%Q).
Proof.
  intros Ha Hb. split.
  - intros (lo & hi & Hlo & Hhi & H).
    rewrite Ha in Hlo. rewrite Hb in Hhi.
    injection Hlo as <-. injection Hhi as <-. exact H.
  - intros (H0 & H1 & H2). exists a, b. auto.
Qed.

Lemma Q_0_le_default : (0 <= DEFAULTQ)%Q.
Proof. unfold Qle; simpl; lia. Qed.

Lemma Q_default_le_max : (DEFAULTQ <= MAXQ)%Q.
Proof. unfold Qle; simpl; lia. Qed.

Lemma Q_0_le_max : (0 <= MAXQ)%Q.
Proof. unfold Qle; simpl; lia. Qed.

(** X1: constructed with any callback and with each of the two options
    either absent ([undefined]) or one of [null], [false], [NaN], the
    instance has [minInterval == 0] and [maxInterval == 1000], is stopped,
    holds no timer handle and has drawn no delay. *)
Theorem constructor_defaults (c : callable) (vmin vmax : value) :
  no_bound vmin -> no_bound vmax ->
  let j := IntervalJitter c (mkOptions vmin vmax) in
  minInterval j = num 0 /\ maxInterval j = num 1000 /\ stopped j = true
  /\ outerTimeoutTimer j = None /\ innerTimeoutTimer j = None
  /\ randomInterval j = undefined.
Proof.
  intros [-> | [-> | [-> | ->]]] [-> | [-> | [-> | ->]]]; cbv zeta;
    repeat split.
Qed.

Lemma constructor_defaults_witness :
  minInterval (IntervalJitter demo_callback (mkOptions null undefined)) = num 0
  /\ maxInterval (IntervalJitter demo_callback (mkOptions null undefined)) = num 1000.
Proof.
  assert (A : no_bound null) by (right; left; reflexivity).
  assert (B : no_bound undefined) by (left; reflexivity).
  destruct (@constructor_defaults demo_callback null undefined A B) as (H1 & H2 & _).
  split; assumption.
Defined.

(** X2: constructed with two finite numbers [lo] and [hi] such that
    [0 <= lo <= hi <= 2147483647], the instance has exactly those bounds,
    fractions included, and satisfies the invariant of the bounds. *)
Theorem constructor_takes_valid_options (c : callable) (lo hi : Q) :
  (0 <= lo)%Q -> (lo <= hi)%Q -> (hi <= MAXQ)%Q ->
  let j := IntervalJitter c (mkOptions (VNum (Fin lo)) (VNum (Fin hi))) in
  minInterval j = VNum (Fin lo) /\ maxInterval j = VNum (Fin hi) /\ bounds_ok j.
Proof.
  intros H0 H1 H2. cbv zeta.
  assert (Hlo : (lo <= MAXQ)%Q) by (eapply Qle_trans; eassumption).
  assert (Hhi : (0 <= hi)%Q) by (eapply Qle_trans; eassumption).
  assert (Emin : minInterval (IntervalJitter c (mkOptions (VNum (Fin lo)) (VNum (Fin hi))))
                 = VNum (Fin lo)).
  { rewrite constructor_min_finite.
    apply Qltb_false in H0, Hlo. now rewrite H0, Hlo. }
  assert (Emax : maxInterval (IntervalJitter c (mkOptions (VNum (Fin lo)) (VNum (Fin hi))))
                 = VNum (Fin hi)).
  { rewrite (@constructor_max_finite c lo hi lo Emin).
    apply Qltb_false in Hhi, H1, H2. now rewrite Hhi, H1, H2. }
  split; [exact Emin | split; [exact Emax|]].
  apply (@bounds_ok_finite _ lo hi Emin Emax). auto.
Qed.

Lemma constructor_takes_valid_options_witness :
  let j := IntervalJitter demo_callback (mkOptions (VNum (Fin (1 # 2))) (VNum (Fin (7 # 2)))) in
  minInterval j = VNum (Fin (1 # 2)) /\ maxInterval j = VNum (Fin (7 # 2)) /\ bounds_ok j.
Proof.
  apply (@constructor_takes_valid_options demo_callback (1 # 2)%Q (7 # 2)%Q);
    unfold Qle; simpl; lia.
Defined.

Ltac q_order :=
  unfold MAXQ, DEFAULTQ, inject_Z in *; lra.

(** X3: constructed with two finite numbers [lo] and [hi], the instance
    satisfies [0 <= minInterval <= maxInterval <= 2147483647] exactly when
    [lo] is out of range (it is then replaced by 0), or [lo <= hi], or
    [lo <= 1000]; that is, the invariant fails exactly for
    [1000 < lo <= 2147483647] with [hi < lo]. *)
Theorem constructor_bounds_ok_iff (c : callable) (lo hi : Q) :
  bounds_ok (IntervalJitter c (mkOptions (VNum (Fin lo)) (VNum (Fin hi))))
  <-> ((lo < 0)%Q \/ (MAXQ < lo)%Q \/ (lo <= hi)%Q \/ (lo <= DEFAULTQ)%Q).
Proof.
  pose proof (constructor_min_finite c lo (VNum (Fin hi))) as Emin.
  destruct (Qltb lo 0 || Qltb MAXQ lo) eqn:G.
  - (* the minimum was out of range: 0 is stored *)
    change (num 0) with (VNum (Fin 0%Q)) in Emin.
    pose proof (@constructor_max_finite c lo hi 0%Q Emin) as Emax.
    assert (R : (lo < 0)%Q \/ (MAXQ < lo)%Q).
    { apply orb_true_iff in G. destruct G as [G | G]; apply Qltb_true in G; auto. }
    split; [intros _; tauto | intros _].
    destruct (Qltb hi 0 || Qltb hi 0) eqn:A.
    + apply (@bounds_ok_finite _ 0%Q DEFAULTQ Emin Emax). q_order.
    + apply orb_false_iff in A. destruct A as [A _]. apply Qltb_false in A.
      destruct (Qltb MAXQ hi) eqn:B.
      * apply (@bounds_ok_finite _ 0%Q MAXQ Emin Emax). q_order.
      * apply Qltb_false in B.
        apply (@bounds_ok_finite _ 0%Q hi Emin Emax). q_order.
  - (* the minimum is kept *)
    apply orb_false_iff in G. destruct G as [G0 G1].
    apply Qltb_false in G0, G1.
    pose proof (@constructor_max_finite c lo hi lo Emin) as Emax.
    destruct (Qltb hi 0 || Qltb hi lo) eqn:A.
    + assert (L : (hi < lo)%Q).
      { apply orb_true_iff in A. destruct A as [A | A]; apply Qltb_true in A;
          [q_order | exact A]. }
      rewrite (@bounds_ok_finite _ lo DEFAULTQ Emin Emax).
      split; [intros (_ & H & _); auto | intros [H | [H | [H | H]]]; q_order].
    + apply orb_false_iff in A. destruct A as [A0 A1]. apply Qltb_false in A0, A1.
      split; [intros _; auto|intros _].
      destruct (Qltb MAXQ hi) eqn:B.
      * apply (@bounds_ok_finite _ lo MAXQ Emin Emax). q_order.
      * apply Qltb_false in B.
        apply (@bounds_ok_finite _ lo hi Emin Emax). q_order.
Qed.




(** X6: from any state of the instance, the three calls
    [setMinInterval(0); setMaxInterval(hi); setMinInterval(lo)] with finite
    [0 <= lo <= hi <= 2147483647] set the bounds to exactly [lo] and [hi]
    and change nothing else. *)
Theorem set_both_bounds_in_three_calls (j : jitter) (lo hi : Q) :
  (0 <= lo)%Q -> (lo <= hi)%Q -> (hi <= MAXQ)%Q ->
  setMinInterval (setMaxInterval (setMinInterval j (num 0)) (VNum (Fin hi))) (VNum (Fin lo))
  = with_maxInterval (VNum (Fin hi)) (with_minInterval (VNum (Fin lo)) j).
Proof.
  intros H0 H1 H2.
  assert (E1 : minInterval (setMinInterval j (num 0)) = VNum (Fin 0%Q)).
  { unfold setMinInterval.
    match goal with |- context [if ?g then _ else _] => destruct g end; reflexivity. }
  assert (E2 : maxInterval (setMaxInterval (setMinInterval j (num 0)) (VNum (Fin hi)))
               = VNum (Fin hi)).
  { apply (@setMaxInterval_in_range _ 0%Q E1); q_order. }
  assert (E3 : minInterval (setMinInterval
                  (setMaxInterval (setMinInterval j (num 0)) (VNum (Fin hi)))
                  (VNum (Fin lo))) = VNum (Fin lo)).
  { apply (@setMinInterval_in_range _ hi E2); q_order. }
  rewrite setMinInterval_eq, E3, setMaxInterval_eq, E2, setMinInterval_eq.
  destruct j; reflexivity.
Qed.

Lemma set_both_bounds_in_three_calls_witness :
  let j := IntervalJitter demo_callback (mkOptions (num 5000) undefined) in
  setMinInterval (setMaxInterval (setMinInterval j (num 0)) (VNum (Fin (7 # 2))))
                 (VNum (Fin (1 # 2)))
  = with_maxInterval (VNum (Fin (7 # 2))) (with_minInterval (VNum (Fin (1 # 2))) j).
Proof.
  apply (@set_both_bounds_in_three_calls
           (IntervalJitter demo_callback (mkOptions (num 5000) undefined))
           (1 # 2)%Q (7 # 2)%Q); unfold Qle; simpl; lia.
Defined.

(** X7: the two setters do not commute.  On an instance with finite bounds
    [m0] (non-negative) and [M0], and for finite [0 <= lo <= hi <= 2147483647]:
    calling [setMinInterval(lo)] first gives the bounds [lo], [hi] when
    [lo <= M0] and [0], [hi] when [lo > M0]; calling [setMaxInterval(hi)]
    first gives [lo], [hi] when [m0 <= hi], and otherwise the maximum 1000
    with the minimum [lo] if [lo <= 1000] and 0 if not. *)
Theorem setter_order_matters (j : jitter) (m0 M0 lo hi : Q) :
  minInterval j = VNum (Fin m0) -> maxInterval j = VNum (Fin M0) -> (0 <= m0)%Q ->
  (0 <= lo)%Q -> (lo <= hi)%Q -> (hi <= MAXQ)%Q ->
  let a := setMaxInterval (setMinInterval j (VNum (Fin lo))) (VNum (Fin hi)) in
  let b := setMinInterval (setMaxInterval j (VNum (Fin hi))) (VNum (Fin lo)) in
  ((lo <= M0)%Q -> minInterval a = VNum (Fin lo) /\ maxInterval a = VNum (Fin hi))
  /\ ((M0 < lo)%Q -> minInterval a = num 0 /\ maxInterval a = VNum (Fin hi))
  /\ ((m0 <= hi)%Q -> minInterval b = VNum (Fin lo) /\ maxInterval b = VNum (Fin hi))
  /\ ((hi < m0)%Q ->
      maxInterval b = num 1000
      /\ ((lo <= DEFAULTQ)%Q -> minInterval b = VNum (Fin lo))
      /\ ((DEFAULTQ < lo)%Q -> minInterval b = num 0)).
Proof.
  intros Hmin Hmax Hm0 H0 H1 H2. cbv zeta.
  split; [| split; [| split]].
  - intro L.
    assert (E : minInterval (setMinInterval j (VNum (Fin lo))) = VNum (Fin lo))
      by (apply (@setMinInterval_in_range _ M0 Hmax); q_order).
    split; [now rewrite setMaxInterval_min|].
    apply (@setMaxInterval_in_range _ lo E); q_order.
  - intro L.
    assert (E : minInterval (setMinInterval j (VNum (Fin lo))) = VNum (Fin 0%Q))
      by (apply (@setMinInterval_out_of_range _ M0 Hmax); auto).
    split; [now rewrite setMaxInterval_min|].
    apply (@setMaxInterval_in_range _ 0%Q E); q_order.
  - intro L.
    assert (E : maxInterval (setMaxInterval j (VNum (Fin hi))) = VNum (Fin hi))
      by (apply (@setMaxInterval_in_range _ m0 Hmin); q_order).
    split; [| now rewrite setMinInterval_max].
    apply (@setMinInterval_in_range _ hi E); q_order.
  - intro L.
    assert (E : maxInterval (setMaxInterval j (VNum (Fin hi))) = VNum (Fin DEFAULTQ))
      by (apply (@setMaxInterval_too_small _ m0 Hmin); auto).
    split; [now rewrite setMinInterval_max | split; intro D].
    + apply (@setMinInterval_in_range _ DEFAULTQ E); q_order.
    + apply (@setMinInterval_out_of_range _ DEFAULTQ E); auto.
Qed.

Lemma setter_order_matters_witness :
  let j := setMaxInterval (setMinInterval default_instance (num 100)) (num 200) in
  (* 300, 400: the minimum first is lost, the maximum first is kept *)
  minInterval (setMaxInterval (setMinInterval j (num 300)) (num 400)) = num 0
  /\ minInterval (setMinInterval (setMaxInterval j (num 400)) (num 300)) = num 300
  (* 10, 50: the maximum first falls back to 1000 *)
  /\ maxInterval (setMinInterval (setMaxInterval j (num 50)) (num 10)) = num 1000
  /\ maxInterval (setMaxInterval (setMinInterval j (num 10)) (num 50)) = num 50.
Proof.
  cbv zeta.
  pose (j := setMaxInterval (setMinInterval default_instance (num 100)) (num 200)).
  assert (P0 : (0 <= inject_Z 100)%Q) by q_order.
  assert (A1 : (0 <= inject_Z 300)%Q) by q_order.
  assert (A2 : (inject_Z 300 <= inject_Z 400)%Q) by q_order.
  assert (A3 : (inject_Z 400 <= MAXQ)%Q) by q_order.
  assert (B1 : (0 <= inject_Z 10)%Q) by q_order.
  assert (B2 : (inject_Z 10 <= inject_Z 50)%Q) by q_order.
  assert (B3 : (inject_Z 50 <= MAXQ)%Q) by q_order.
  destruct (@setter_order_matters j (inject_Z 100) (inject_Z 200)
              (inject_Z 300) (inject_Z 400) eq_refl eq_refl P0 A1 A2 A3)
    as (_ & Ha & Hb & _).
  destruct (@setter_order_matters j (inject_Z 100) (inject_Z 200)
              (inject_Z 10) (inject_Z 50) eq_refl eq_refl P0 B1 B2 B3)
    as (Hc & _ & _ & Hd).
  split; [apply Ha; q_order | split; [apply Hb; q_order | split]].
  - apply Hd; q_order.
  - apply Hc; q_order.
Defined.

(** X8: each setter called twice with the same argument does what one call
    does, for every state and every argument. *)
Theorem setters_idempotent (j : jitter) :
  (forall v : value, setMinInterval (setMinInterval j v) v = setMinInterval j v)
  /\ (forall v : value, setMaxInterval (setMaxInterval j v) v = setMaxInterval j v)
  /\ (forall c : callable, setCallback (setCallback j c) c = setCallback j c).
Proof.
  split; [| split].
  - intro v. rewrite (setMinInterval_eq (setMinInterval j v) v).
    rewrite (@setMinInterval_min_congr (setMinInterval j v) j v)
      by apply setMinInterval_max.
    rewrite (setMinInterval_eq j v) at 2 3. now destruct j.
  - intro v. rewrite (setMaxInterval_eq (setMaxInterval j v) v).
    rewrite (@setMaxInterval_max_congr (setMaxInterval j v) j v)
      by apply setMaxInterval_min.
    rewrite (setMaxInterval_eq j v) at 2 3. now destruct j.
  - intro c. unfold setCallback. destruct (is_function c); [| reflexivity].
    now destruct j.
Qed.

(** ** More on the drawn delay *)

Lemma Qfloor_unit (r : Q) : (0 <= r)%Q -> (r < 1)%Q -> Qfloor r = 0.
Proof.
  intros H0 H1.
  assert (A : 0 <= Qfloor r).
  { change 0 with (Qfloor 0%Q). now apply Qfloor_resp_le. }
  assert (B : Qfloor r < 1).
  { rewrite Zlt_Qlt. eapply Qle_lt_trans; [apply Qfloor_le | exact H1]. }
  lia.
Qed.

(** X9: with both bounds equal to the same finite number [q] the delay is
    [q] whatever [Math.random()] returns. *)
Theorem equal_bounds_constant_delay (j : jitter) (q r : Q) :
  minInterval j = VNum (Fin q) -> maxInterval j = VNum (Fin q) ->
  (0 <= r)%Q -> (r < 1)%Q ->
  exists d : Q, draw j r = VNum (Fin d) /\ (d == q)%Q.
Proof.
  intros Hmin Hmax H0 H1.
  eexists. split; [exact (@draw_finite j q q r Hmin Hmax)|].
  assert (E : (r * (q + - q + 1) == r)%Q) by ring.
  rewrite (Qfloor_comp _ _ E), (Qfloor_unit H0 H1). ring.
Qed.

Lemma equal_bounds_constant_delay_witness :
  exists d : Q,
    draw (IntervalJitter demo_callback (mkOptions (num 100) (num 100))) (2 # 3)
    = VNum (Fin d) /\ (d == inject_Z 100)%Q.
Proof.
  apply (@equal_bounds_constant_delay
           (IntervalJitter demo_callback (mkOptions (num 100) (num 100)))
           (inject_Z 100) (2 # 3)%Q eq_refl eq_refl);
    [unfold Qle | unfold Qlt]; simpl; lia.
Defined.

(** X10: with a finite minimum [lo] and the maximum [lo + n] for an integer
    [n >= 0] (the bounds themselves need not be integers), the delay is
    [lo + k] for an integer [0 <= k <= n]: it lies between the two bounds. *)
Theorem delay_within_bounds_of_integer_width (j : jitter) (lo hi r : Q) (n : Z) :
  minInterval j = VNum (Fin lo) -> maxInterval j = VNum (Fin hi) ->
  (hi == lo + inject_Z n)%Q -> 0 <= n ->
  (0 <= r)%Q -> (r < 1)%Q ->
  exists (d : Q) (k : Z),
    draw j r = VNum (Fin d) /\ (d == lo + inject_Z k)%Q /\ 0 <= k <= n
    /\ (lo <= d)%Q /\ (d <= hi)%Q.
Proof.
  intros Hmin Hmax Hw Hn H0 H1.
  assert (E : (r * (hi + - lo + 1) == r * inject_Z (n + 1))%Q).
  { rewrite Hw, inject_Z_plus. change (inject_Z 1) with 1%Q. ring. }
  assert (P : (0 < inject_Z (n + 1))%Q).
  { change 0%Q with (inject_Z 0). rewrite <- Zlt_Qlt. lia. }
  destruct (floor_of_scaled H0 H1 P) as [K0 K1].
  rewrite <- Zlt_Qlt in K1.
  exists (inject_Z (Qfloor (r * (hi + - lo + 1))) + lo)%Q,
         (Qfloor (r * inject_Z (n + 1))).
  rewrite (Qfloor_comp _ _ E).
  split; [rewrite <- (Qfloor_comp _ _ E); exact (@draw_finite j lo hi r Hmin Hmax)|].
  split; [ring|]. split; [lia|].
  assert (A : (0 <= inject_Z (Qfloor (r * inject_Z (n + 1))))%Q).
  { change 0%Q with (inject_Z 0). rewrite <- Zle_Qle. exact K0. }
  assert (B : (inject_Z (Qfloor (r * inject_Z (n + 1))) <= inject_Z n)%Q).
  { rewrite <- Zle_Qle. lia. }
  split; [lra | rewrite Hw; lra].
Qed.

Lemma delay_within_bounds_of_integer_width_witness :
  let j := IntervalJitter demo_callback (mkOptions (VNum (Fin (1 # 2))) (VNum (Fin (5 # 2)))) in
  exists (d : Q) (k : Z),
    draw j (3 # 4) = VNum (Fin d) /\ (d == (1 # 2) + inject_Z k)%Q /\ 0 <= k <= 2
    /\ ((1 # 2) <= d)%Q /\ (d <= (5 # 2))%Q.
Proof.
  cbv zeta.
  assert (W : ((5 # 2) == (1 # 2) + inject_Z 2)%Q) by reflexivity.
  assert (N : 0 <= 2) by lia.
  assert (R0 : (0 <= 3 # 4)%Q) by (unfold Qle; simpl; lia).
  assert (R1 : (3 # 4 < 1)%Q) by (unfold Qlt; simpl; lia).
  exact (@delay_within_bounds_of_integer_width
           (IntervalJitter demo_callback
              (mkOptions (VNum (Fin (1 # 2))) (VNum (Fin (5 # 2)))))
           (1 # 2)%Q (5 # 2)%Q (3 # 4)%Q 2 eq_refl eq_refl W N R0 R1).
Defined.

(** X11: when the bounds are inverted, integers with
    [maxInterval < minInterval] (a state the constructor and
    [setMaxInterval] can produce), the delay is an integer [d] with
    [maxInterval + 1 <= d <= minInterval]: above the maximum, never above
    the minimum. *)
Theorem delay_with_inverted_bounds (j : jitter) (lo hi : Z) (r : Q) :
  minInterval j = num lo -> maxInterval j = num hi -> hi < lo ->
  (0 <= r)%Q -> (r < 1)%Q ->
  exists (q : Q) (d : Z),
    draw j r = VNum (Fin q) /\ (q == inject_Z d)%Q /\ hi + 1 <= d <= lo.
Proof.
  intros Hmin Hmax Hinv H0 H1.
  assert (E : (r * (inject_Z hi + - inject_Z lo + 1) == r * inject_Z (hi - lo + 1))%Q).
  { unfold Z.sub. rewrite !inject_Z_plus, inject_Z_opp.
    change (inject_Z 1) with 1%Q. ring. }
  assert (N : (inject_Z (hi - lo + 1) <= 0)%Q).
  { change 0%Q with (inject_Z 0). rewrite <- Zle_Qle. lia. }
  assert (U : (r * inject_Z (hi - lo + 1) <= 0)%Q) by nra.
  assert (L : (inject_Z (hi - lo + 1) <= r * inject_Z (hi - lo + 1))%Q) by nra.
  apply Qfloor_resp_le in U, L. rewrite Qfloor_Z in L.
  change (Qfloor 0) with 0 in U.
  exists (inject_Z (Qfloor (r * (inject_Z hi + - inject_Z lo + 1))) + inject_Z lo)%Q,
         (Qfloor (r * inject_Z (hi - lo + 1)) + lo).
  split; [exact (@draw_finite j (inject_Z lo) (inject_Z hi) r Hmin Hmax)|].
  split; [| lia].
  rewrite (Qfloor_comp _ _ E).
  rewrite (inject_Z_plus (Qfloor (r * inject_Z (hi - lo + 1))) lo). reflexivity.
Qed.

Lemma delay_with_inverted_bounds_witness :
  let j := IntervalJitter demo_callback (mkOptions (num 5000) undefined) in
  exists (q : Q) (d : Z),
    draw j (1 # 2) = VNum (Fin q) /\ (q == inject_Z d)%Q /\ 1000 + 1 <= d <= 5000.
Proof.
  cbv zeta.
  assert (I : 1000 < 5000) by lia.
  assert (R0 : (0 <= 1 # 2)%Q) by (unfold Qle; simpl; lia).
  assert (R1 : (1 # 2 < 1)%Q) by (unfold Qlt; simpl; lia).
  exact (@delay_with_inverted_bounds
           (IntervalJitter demo_callback (mkOptions (num 5000) undefined))
           5000 1000 (1 # 2)%Q eq_refl eq_refl I R0 R1).
Defined.

(** ** Methods and the trace *)

Lemma count_timer_events (p : event -> bool) (t : list event) :
  (forall e, timer_event e = true -> p e = false) ->
  forallb timer_event t = true -> count p t = 0%nat.
Proof.
  intros Hp. induction t as [| e t IH]; intro H; [reflexivity|].
  cbn in H. apply andb_true_iff in H. destruct H as [He Ht].
  rewrite count_cons, (Hp e He), (IH Ht). reflexivity.
Qed.

Lemma only_timer_events_refl (w : world) : only_timer_events w w.
Proof. exists []. split; [now rewrite app_nil_r | reflexivity]. Qed.

Lemma only_timer_events_trans (w1 w2 w3 : world) :
  only_timer_events w1 w2 -> only_timer_events w2 w3 -> only_timer_events w1 w3.
Proof.
  intros (a & Ea & Sa) (b & Eb & Sb). exists (a ++ b). split.
  - now rewrite Eb, Ea, app_assoc.
  - rewrite forallb_app. now rewrite Sa, Sb.
Qed.

Lemma only_timer_events_same (w w' : world) :
  trace w' = trace w -> only_timer_events w w'.
Proof. intro E. exists []. split; [now rewrite app_nil_r | reflexivity]. Qed.

Lemma only_timer_events_clear_if_set (o : option handle) (w : world) :
  only_timer_events w (clear_if_set o w).
Proof.
  destruct o as [h|]; [|apply only_timer_events_refl].
  unfold clear_if_set. destruct (Nat.eqb h 0); [apply only_timer_events_refl|].
  exists [EvClearTimeout h]. split; reflexivity.
Qed.

Lemma only_timer_events_stop (w : world) : only_timer_events w (stop w).
Proof.
  unfold stop.
  eapply only_timer_events_trans; [apply only_timer_events_clear_if_set|].
  eapply only_timer_events_trans; [apply only_timer_events_clear_if_set|].
  now apply only_timer_events_same.
Qed.

Lemma only_timer_events_loop (r : Q) (w : world) : only_timer_events w (loop r w).
Proof.
  unfold loop. destruct (stopped (this w)); [apply only_timer_events_refl|].
  eexists [_]. split; reflexivity.
Qed.

Lemma only_timer_events_perform (k : call) (w : world) :
  only_timer_events w (perform k w).
Proof.
  destruct k; cbn [perform]; try (now apply only_timer_events_same).
  - apply only_timer_events_stop.
  - unfold run. eapply only_timer_events_trans; [| apply only_timer_events_loop].
    now apply only_timer_events_same.
Qed.

Lemma only_timer_events_perform_all (ks : list call) (w : world) :
  only_timer_events w (perform_all ks w).
Proof.
  revert w. induction ks as [| k ks IH]; intro w; cbn.
  - apply only_timer_events_refl.
  - eapply only_timer_events_trans; [apply only_timer_events_perform | apply IH].
Qed.

Lemma only_timer_events_count (p : event -> bool) (w w' : world) :
  (forall e, timer_event e = true -> p e = false) ->
  only_timer_events w w' -> count p (trace w') = count p (trace w).
Proof.
  intros Hp (t & -> & Ht). rewrite count_app, (@count_timer_events p t Hp Ht). lia.
Qed.

(** X12: no method calls the callback.  Whatever methods client code calls,
    in whatever order and state, the trace grows by [setTimeout] and
    [clearTimeout] events only: the callback is not called, does not return
    and the hook is not called until the host fires a timer.  In particular
    [run()] returns before the first call of the callback. *)
Theorem methods_never_call_back (w : world) (ks : list call) :
  let w' := exec (map Client ks) w in
  only_timer_events w w'
  /\ count is_call (trace w') = count is_call (trace w)
  /\ count is_return (trace w') = count is_return (trace w)
  /\ count is_hook (trace w') = count is_hook (trace w).
Proof.
  cbv zeta.
  assert (H : only_timer_events w (exec (map Client ks) w)).
  { revert w. induction ks as [| k ks IH]; intro w.
    - apply only_timer_events_refl.
    - change (exec (map Client (k :: ks)) w)
        with (exec (map Client ks) (perform k w)).
      eapply only_timer_events_trans; [apply only_timer_events_perform | apply IH]. }
  split; [exact H|].
  repeat split; apply only_timer_events_count; try exact H;
    intros [] E; try discriminate; reflexivity.
Qed.

(** ** [stop] twice, [stop] then [run], [run] twice *)

Lemma timers_clear_if_set_filter (o : option handle) (w : world) :
  timers (clear_if_set o w) = filter (survives o) (timers w).
Proof.
  destruct o as [h|]; unfold clear_if_set, survives.
  - destruct (Nat.eqb h 0); cbn [orb].
    + symmetry. apply forallb_filter_id, forallb_forall. intros; reflexivity.
    + reflexivity.
  - symmetry. apply forallb_filter_id, forallb_forall. intros; reflexivity.
Qed.

Lemma timers_stop (w : world) :
  timers (stop w) =
  filter (survives (innerTimeoutTimer (this w)))
         (filter (survives (outerTimeoutTimer (this w))) (timers w)).
Proof.
  unfold stop. cbn [on_this timers].
  now rewrite timers_clear_if_set_filter, this_clear_if_set, timers_clear_if_set_filter.
Qed.

Lemma next_handle_stop (w : world) : next_handle (stop w) = next_handle w.
Proof.
  unfold stop. cbn [on_this next_handle]. now rewrite !next_handle_clear_if_set.
Qed.

Lemma filter_twice (A : Type) (p q : A -> bool) (l : list A) :
  filter p (filter q (filter p (filter q l))) = filter p (filter q l).
Proof.
  induction l as [| a l IH]; [reflexivity|].
  cbn. destruct (q a) eqn:Q; cbn; [| exact IH].
  destruct (p a) eqn:P; cbn; [| exact IH].
  rewrite Q. cbn. rewrite P. now rewrite IH.
Qed.

Lemma with_stopped_id (j : jitter) : stopped j = true -> with_stopped true j = j.
Proof. destruct j; cbn. now intros ->. Qed.

Lemma stopped_constructed (c : callable) (o : options) :
  stopped (IntervalJitter c o) = true.
Proof.
  unfold IntervalJitter; cbv zeta.
  cbn [stopped with_innerTimeoutTimer with_outerTimeoutTimer].
  rewrite setMaxInterval_eq. cbn [stopped with_maxInterval].
  rewrite setMinInterval_eq. reflexivity.
Qed.

(** X13: [stop()] is idempotent on the instance and on the timer queue: a
    second [stop()] changes neither; and on an instance that was never
    started [stop()] changes nothing at all and calls [clearTimeout] not
    once. *)
Theorem stop_idempotent :
  (forall w : world,
     this (stop (stop w)) = this (stop w)
     /\ timers (stop (stop w)) = timers (stop w)
     /\ next_handle (stop (stop w)) = next_handle (stop w))
  /\ (forall (c : callable) (o : options),
        stop (new_world c o) = new_world c o).
Proof.
  split.
  - intro w. split; [| split].
    + rewrite !this_stop. reflexivity.
    + rewrite (timers_stop (stop w)), this_stop.
      cbn [innerTimeoutTimer outerTimeoutTimer with_stopped].
      rewrite timers_stop. apply filter_twice.
    + now rewrite !next_handle_stop.
  - intros c o. unfold stop.
    change (outerTimeoutTimer (this (new_world c o))) with (@None handle).
    cbn [clear_if_set].
    change (innerTimeoutTimer (this (new_world c o))) with (@None handle).
    cbn [clear_if_set].
    unfold on_this, new_world; cbn [this timers next_handle trace]. f_equal.
    apply with_stopped_id, stopped_constructed.
Qed.

Lemma dequeue_single (h : handle) (t : task) (d : value) (w : world) :
  timers w = [mkTimer h t d] ->
  timers (dequeue h w) = [] /\ this (dequeue h w) = this w
  /\ trace (dequeue h w) = trace w /\ next_handle (dequeue h w) = next_handle w.
Proof.
  intro E. unfold dequeue. cbn. rewrite E. cbn. now rewrite Nat.eqb_refl.
Qed.

Lemma run_schedules (r : Q) (w : world) :
  timers (run r w) = timers w ++ [mkTimer (next_handle w) OuterTask (draw (this w) r)]
  /\ next_handle (run r w) = S (next_handle w)
  /\ this (run r w) =
     with_outerTimeoutTimer (Some (next_handle w))
       (with_randomInterval (draw (this w) r) (with_stopped false (this w)))
  /\ trace (run r w) = trace w ++ [EvSetTimeout (next_handle w) OuterTask (draw (this w) r)].
Proof. repeat split. Qed.

Lemma outer_task_calls (w : world) (body : list call) (result : outcome) :
  callback (this w) = Func body result ->
  count is_call (trace (outer_task w)) = S (count is_call (trace w)).
Proof.
  intro E. unfold outer_task. rewrite E.
  assert (B : count is_call (trace (perform_all body (log EvCall w)))
              = S (count is_call (trace w))).
  { rewrite (@only_timer_events_count is_call (log EvCall w) _).
    - cbn [log trace]. rewrite count_app. cbn. lia.
    - intros [] H; try discriminate; reflexivity.
    - apply only_timer_events_perform_all. }
  destruct result as [res |]; cbn [log trace setTimeout on_this onCallbackExecuted];
    rewrite !count_app, B; cbn; lia.
Qed.

(** X14: [run()] after [stop()] starts afresh.  If every queued timer is
    one the instance holds the handle of, then after [stop(); run()] exactly
    one timer is queued, the wait of the new loop, with a fresh handle stored
    in [outerTimeoutTimer] and a delay drawn from the bounds the instance
    had before the [stop()]; the callback and the bounds are unchanged. *)
Theorem run_after_stop_starts_afresh (w : world) (r : Q) :
  tracked w ->
  let w' := run r (stop w) in
  timers w' = [mkTimer (next_handle w) OuterTask (draw (this w) r)]
  /\ outerTimeoutTimer (this w') = Some (next_handle w)
  /\ stopped (this w') = false
  /\ randomInterval (this w') = draw (this w) r
  /\ callback (this w') = callback (this w)
  /\ minInterval (this w') = minInterval (this w)
  /\ maxInterval (this w') = maxInterval (this w).
Proof.
  intro T. cbv zeta.
  destruct (run_schedules r (stop w)) as (Ht & _ & Hthis & _).
  rewrite Ht, Hthis, (stop_cancels_tracked T), next_handle_stop, this_stop.
  repeat split.
Qed.

Lemma run_after_stop_starts_afresh_witness :
  let w := exec [Client (CallRun (1 # 2)); Fire 1%nat (1 # 3)]
                (new_world demo_callback no_options) in
  timers (run (1 # 4) (stop w))
  = [mkTimer (next_handle w) OuterTask (draw (this w) (1 # 4))].
Proof.
  cbv zeta.
  assert (T : tracked (exec [Client (CallRun (1 # 2)); Fire 1%nat (1 # 3)]
                            (new_world demo_callback no_options))).
  { apply one_loop_tracked, one_loop_exec;
      [now apply one_loop_new_world | reflexivity]. }
  exact (proj1 (@run_after_stop_starts_afresh _ (1 # 4)%Q T)).
Defined.

(** X15: [run()] called twice leaks the first wait.  On an instance with no
    timer queued, after [run(); run(); stop()] the wait set by the first
    [run()] is still queued, with [stopped] true; and when the callback is a
    function, the host firing that timer calls it once more. *)
Theorem second_run_leaks_first_wait (w : world) (r1 r2 : Q) :
  timers w = [] ->
  innerTimeoutTimer (this w) <> Some (next_handle w) ->
  let w' := stop (run r2 (run r1 w)) in
  timers w' = [mkTimer (next_handle w) OuterTask (draw (this w) r1)]
  /\ stopped (this w') = true
  /\ (is_function (callback (this w)) = true ->
      forall r3 : Q,
        count is_call (trace (fire (next_handle w) r3 w')) = S (count is_call (trace w'))).
Proof.
  intros Ht Hi. cbv zeta.
  assert (E : timers (stop (run r2 (run r1 w)))
              = [mkTimer (next_handle w) OuterTask (draw (this w) r1)]).
  { rewrite timers_stop.
    destruct (run_schedules r2 (run r1 w)) as (T2 & _ & J2 & _).
    destruct (run_schedules r1 w) as (T1 & N1 & J1 & _).
    rewrite T2, J2, T1, N1, J1, Ht.
    cbn [app outerTimeoutTimer innerTimeoutTimer with_outerTimeoutTimer
         with_randomInterval with_stopped filter survives timer_handle].
    assert (A : Nat.eqb (next_handle w) (S (next_handle w)) = false)
      by (apply Nat.eqb_neq; lia).
    rewrite A, Nat.eqb_refl. cbn [negb orb Nat.eqb filter].
    destruct (innerTimeoutTimer (this w)) as [h|] eqn:I; cbn [survives filter];
      [| reflexivity].
    assert (B : Nat.eqb (next_handle w) h = false)
      by (apply Nat.eqb_neq; congruence).
    cbn [timer_handle]. rewrite B, orb_true_r. reflexivity. }
  assert (C : callback (this (stop (run r2 (run r1 w)))) = callback (this w)).
  { rewrite this_stop.
    destruct (run_schedules r2 (run r1 w)) as (_ & _ & -> & _).
    destruct (run_schedules r1 w) as (_ & _ & -> & _). reflexivity. }
  pose proof (stop_sets_stopped (run r2 (run r1 w))) as S.
  remember (stop (run r2 (run r1 w))) as w' eqn:Ew'. clear Ew'.
  split; [exact E | split; [exact S|]].
  intros F r3.
  destruct (callback (this w)) as [v | body result] eqn:Ecb; [discriminate|].
  destruct (@dequeue_single _ OuterTask _ w' E) as (_ & D2 & D3 & _).
  unfold fire, pending. rewrite E. cbn [find timer_handle].
  rewrite Nat.eqb_refl. cbn [timer_task].
  rewrite (@outer_task_calls (dequeue (next_handle w) w') body result)
    by (rewrite D2; exact C).
  now rewrite D3.
Qed.

Lemma second_run_leaks_first_wait_witness :
  let w := new_world (NotCallable undefined) no_options in
  timers (stop (run (1 # 4) (run (1 # 2) w)))
  = [mkTimer (next_handle w) OuterTask (draw (this w) (1 # 2))]
  /\ stopped (this (stop (run (1 # 4) (run (1 # 2) w)))) = true.
Proof.
  cbv zeta.
  assert (I : innerTimeoutTimer (this (new_world (NotCallable undefined) no_options))
              <> Some (next_handle (new_world (NotCallable undefined) no_options)))
    by discriminate.
  destruct (@second_run_leaks_first_wait
              (new_world (NotCallable undefined) no_options) (1 # 2)%Q (1 # 4)%Q
              eq_refl I) as (A & B & _).
  split; [exact A | exact B].
Defined.

(** ** The life of one loop *)

Lemma callback_new_world (c : callable) (o : options) :
  callback (this (new_world c o)) = c.
Proof.
  cbn [new_world this]. unfold IntervalJitter; cbv zeta.
  cbn [callback with_innerTimeoutTimer with_outerTimeoutTimer].
  now rewrite setMaxInterval_callback, setMinInterval_callback.
Qed.

Lemma waiting_after_run (c : callable) (o : options) (r : Q) :
  waiting c (run r (new_world c o)).
Proof.
  destruct (run_schedules r (new_world c o)) as (T & _ & J & _).
  unfold waiting. rewrite T, J. cbn [callback stopped with_outerTimeoutTimer
    with_randomInterval with_stopped].
  split; [apply callback_new_world | split; [reflexivity|]].
  eexists _, _. reflexivity.
Qed.

Lemma bound_setters_keep (body : list call) (w : world) :
  forallb bound_setter body = true ->
  keeps_loop_state w (perform_all body w)
  /\ callback (this (perform_all body w)) = callback (this w).
Proof.
  revert w. induction body as [| k ks IH]; intros w Hb; cbn [perform_all fold_left].
  - split; [apply keeps_loop_state_refl | reflexivity].
  - cbn in Hb. apply andb_true_iff in Hb. destruct Hb as [Hk Hks].
    destruct (IH (perform k w) Hks) as [K C].
    assert (S : keeps_loop_state w (perform k w)
                /\ callback (this (perform k w)) = callback (this w)).
    { destruct k as [| r | v | v | c]; try discriminate; cbn [perform].
      - destruct (setMinInterval_as_update (this w) v) as [v' E].
        unfold keeps_loop_state; cbn; rewrite E; cbn. repeat split.
      - destruct (setMaxInterval_as_update (this w) v) as [v' E].
        unfold keeps_loop_state; cbn; rewrite E; cbn. repeat split. }
    destruct S as [K0 C0].
    split; [exact (keeps_loop_state_trans K0 K) | exact (eq_trans C C0)].
Qed.

Lemma tick_single (h : handle) (t : task) (d : value) (r : Q) (w : world) :
  timers w = [mkTimer h t d] ->
  tick r w = match t with
             | OuterTask => outer_task (dequeue h w)
             | LoopTask => loop r (dequeue h w)
             end.
Proof.
  intro E. unfold tick, fire, pending. rewrite E. cbn [timer_handle find].
  now rewrite Nat.eqb_refl.
Qed.

Lemma tick_waiting (body : list call) (res : value) (r : Q) (w : world) :
  forallb bound_setter body = true ->
  waiting (Func body (Return res)) w ->
  yielding (Func body (Return res)) (tick r w)
  /\ count is_call (trace (tick r w)) = S (count is_call (trace w))
  /\ count is_hook (trace (tick r w)) = S (count is_hook (trace w)).
Proof.
  intros Hb (Hc & Hs & h & d & Ht).
  rewrite (@tick_single h OuterTask d r w Ht).
  destruct (@dequeue_single h OuterTask d w Ht) as (D1 & D2 & D3 & D4).
  unfold outer_task. rewrite D2, Hc.
  destruct (@bound_setters_keep body (log EvCall (dequeue h w)) Hb)
    as ((K1 & K2 & K3 & K4 & _ & _) & Kc).
  cbn [log this timers next_handle trace] in K1, K2, K3, K4, Kc.
  remember (perform_all body (log EvCall (dequeue h w))) as w1 eqn:Ew1.
  unfold yielding. cbn -[count].
  rewrite Kc, K4, K1, K3, D1, D2, D3, !count_app.
  repeat split; try assumption.
  - eexists _, _. reflexivity.
  - cbn. lia.
  - cbn. lia.
Qed.

Lemma tick_yielding (c : callable) (r : Q) (w : world) :
  yielding c w ->
  waiting c (tick r w)
  /\ count is_call (trace (tick r w)) = count is_call (trace w)
  /\ count is_hook (trace (tick r w)) = count is_hook (trace w).
Proof.
  intros (Hc & Hs & h & d & Ht).
  rewrite (@tick_single h LoopTask d r w Ht).
  destruct (@dequeue_single h LoopTask d w Ht) as (D1 & D2 & D3 & D4).
  remember (dequeue h w) as w0 eqn:Ew0.
  unfold loop. rewrite D2, Hs. unfold waiting. cbn -[count].
  rewrite D1, D2, D3, !count_app.
  repeat split; try assumption.
  - eexists _, _. reflexivity.
  - cbn. lia.
  - cbn. lia.
Qed.

Lemma ticks_alternate (body : list call) (res : value) (rs : list Q) :
  forallb bound_setter body = true ->
  forall w : world,
    (waiting (Func body (Return res)) w ->
     (waiting (Func body (Return res)) (ticks rs w)
      \/ yielding (Func body (Return res)) (ticks rs w))
     /\ count is_call (trace (ticks rs w))
        = (count is_call (trace w) + Nat.div2 (S (length rs)))%nat
     /\ count is_hook (trace (ticks rs w))
        = (count is_hook (trace w) + Nat.div2 (S (length rs)))%nat)
    /\ (yielding (Func body (Return res)) w ->
     (waiting (Func body (Return res)) (ticks rs w)
      \/ yielding (Func body (Return res)) (ticks rs w))
     /\ count is_call (trace (ticks rs w))
        = (count is_call (trace w) + Nat.div2 (length rs))%nat
     /\ count is_hook (trace (ticks rs w))
        = (count is_hook (trace w) + Nat.div2 (length rs))%nat).
Proof.
  intro Hb. induction rs as [| r rs IH]; intro w.
  - split; intro H; cbn; (split; [auto | split; lia]).
  - change (ticks (r :: rs) w) with (ticks rs (tick r w)).
    destruct (IH (tick r w)) as [IHw IHy]. split; intro H.
    + destruct (@tick_waiting body res r w Hb H) as (Y & C & K).
      destruct (IHy Y) as (S & C' & K').
      split; [exact S|]. rewrite C', K', C, K.
      cbn [length Nat.div2]. split; lia.
    + destruct (@tick_yielding (Func body (Return res)) r w H) as (W & C & K).
      destruct (IHw W) as (S & C' & K').
      split; [exact S|]. rewrite C', K', C, K.
      cbn [length]. split; lia.
Qed.

(** X16: a loop is perpetual and calls the callback once per cycle.  With a
    callback that returns (and sets bounds at most), after [run()] on a new
    instance and any number [n] of host tasks, the callback has been called
    [ceil(n/2)] times and the hook as often, exactly one timer is queued and
    the instance is not stopped. *)
Theorem loop_runs_until_stopped
        (body : list call) (res : value) (o : options) (r0 : Q) (rs : list Q) :
  forallb bound_setter body = true ->
  let w := ticks rs (run r0 (new_world (Func body (Return res)) o)) in
  count is_call (trace w) = Nat.div2 (S (length rs))
  /\ count is_hook (trace w) = Nat.div2 (S (length rs))
  /\ length (timers w) = 1%nat
  /\ stopped (this w) = false.
Proof.
  intro Hb. cbv zeta.
  destruct (@ticks_alternate body res rs Hb
              (run r0 (new_world (Func body (Return res)) o))) as [H _].
  destruct (H (waiting_after_run _ o r0)) as (S & C & K).
  split; [exact C | split; [exact K|]].
  destruct S as [(_ & Hs & h & d & Ht) | (_ & Hs & h & d & Ht)];
    rewrite Ht; auto.
Qed.

Lemma loop_runs_until_stopped_witness :
  let w := ticks [(1 # 2); (1 # 3); (1 # 4); (1 # 5); (1 # 6)]%Q
                 (run (1 # 7) (new_world (Func [CallSetMaxInterval (num 50)]
                                               (Return (num 7))) no_options)) in
  count is_call (trace w) = 3%nat /\ count is_hook (trace w) = 3%nat
  /\ length (timers w) = 1%nat /\ stopped (this w) = false.
Proof.
  exact (@loop_runs_until_stopped [CallSetMaxInterval (num 50)] (num 7) no_options
           (1 # 7)%Q [(1 # 2); (1 # 3); (1 # 4); (1 # 5); (1 # 6)]%Q eq_refl).
Defined.



Lemma stopping_body_keeps (body : list call) (w : world) :
  forallb (fun k => bound_setter k || is_stop k) body = true ->
  timers w = [] ->
  timers (perform_all body w) = []
  /\ next_handle (perform_all body w) = next_handle w
  /\ callback (this (perform_all body w)) = callback (this w)
  /\ stopped (this (perform_all body w)) = stopped (this w) || existsb is_stop body.
Proof.
  revert w. induction body as [| k ks IH]; intros w Hb Ht;
    cbn [perform_all fold_left existsb].
  - rewrite orb_false_r. auto.
  - cbn in Hb. apply andb_true_iff in Hb. destruct Hb as [Hk Hks].
    assert (S : timers (perform k w) = []
                /\ next_handle (perform k w) = next_handle w
                /\ callback (this (perform k w)) = callback (this w)
                /\ stopped (this (perform k w)) = stopped (this w) || is_stop k).
    { destruct k as [| r | v | v | c]; try discriminate; cbn [perform is_stop].
      - rewrite this_stop, next_handle_stop, orb_true_r.
        repeat split. unfold stop. cbn [on_this timers].
        now do 2 apply timers_clear_if_set_nil.
      - destruct (setMinInterval_as_update (this w) v) as [v' E].
        cbn; rewrite E; cbn. rewrite orb_false_r. auto.
      - destruct (setMaxInterval_as_update (this w) v) as [v' E].
        cbn; rewrite E; cbn. rewrite orb_false_r. auto. }
    destruct S as (S1 & S2 & S3 & S4).
    destruct (IH (perform k w) Hks S1) as (I1 & I2 & I3 & I4).
    change (fold_left (fun w c => perform c w) ks (perform k w))
      with (perform_all ks (perform k w)).
    rewrite I1, I2, I3, I4, S2, S3, S4, orb_assoc. auto.
Qed.

(** X18: a callback can stop its own instance.  When the wait of a live loop
    fires and the callback calls [stop()] on its receiver at least once and
    besides that nothing but [setMinInterval] and [setMaxInterval] (in
    particular not [run()]) before it returns, that call completes: the
    hook is called and the yield is still scheduled, with [stopped] true.
    When the yield fires the loop ends: no timer is queued and the callback
    is not called again until [run()] is. *)
Theorem callback_can_stop_itself
        (body : list call) (res : value) (w : world) (r r' : Q) :
  stops_itself body = true -> waiting (Func body (Return res)) w ->
  let w1 := tick r w in
  let w2 := tick r' w1 in
  stopped (this w1) = true
  /\ count is_call (trace w1) = S (count is_call (trace w))
  /\ count is_hook (trace w1) = S (count is_hook (trace w))
  /\ (exists h : handle, timers w1 = [mkTimer h LoopTask undefined])
  /\ timers w2 = [] /\ stopped (this w2) = true
  /\ (forall after : list action,
        forallb (fun a => negb (is_run a)) after = true ->
        count is_call (trace (exec after w2)) = count is_call (trace w1)).
Proof.
  intros Hb (Hc & Hs & h & d & Ht). cbv zeta.
  apply andb_true_iff in Hb. destruct Hb as [Hall Hex].
  destruct (@dequeue_single h OuterTask d w Ht) as (D1 & D2 & D3 & D4).
  assert (T0 : timers (log EvCall (dequeue h w)) = []) by exact D1.
  destruct (@stopping_body_keeps body (log EvCall (dequeue h w)) Hall T0)
    as (K1 & K2 & K3 & K4).
  pose proof (only_timer_events_perform_all body (log EvCall (dequeue h w))) as O.
  assert (Cc : count is_call (trace (perform_all body (log EvCall (dequeue h w))))
               = S (count is_call (trace w))).
  { rewrite (@only_timer_events_count is_call _ _ (fun e H => ltac:(now destruct e)) O).
    cbn [log trace]. rewrite count_app, D3. cbn. lia. }
  assert (Ch : count is_hook (trace (perform_all body (log EvCall (dequeue h w))))
               = count is_hook (trace w)).
  { rewrite (@only_timer_events_count is_hook _ _ (fun e H => ltac:(now destruct e)) O).
    cbn [log trace]. rewrite count_app, D3. cbn. lia. }
  cbn [log this] in K3, K4. rewrite Hex, orb_true_r in K4.
  assert (E1 : tick r w =
               on_this (with_innerTimeoutTimer
                          (Some (next_handle (perform_all body (log EvCall (dequeue h w))))))
                 (snd (setTimeout LoopTask undefined
                         (onCallbackExecuted res
                            (log (EvReturn res)
                               (perform_all body (log EvCall (dequeue h w)))))))).
  { rewrite (@tick_single h OuterTask d r w Ht).
    unfold outer_task. rewrite D2, Hc. reflexivity. }
  remember (perform_all body (log EvCall (dequeue h w))) as wb eqn:Ewb.
  assert (T1 : timers (tick r w) = [mkTimer (next_handle wb) LoopTask undefined])
    by (rewrite E1; cbn; now rewrite K1).
  assert (S1 : stopped (this (tick r w)) = true) by (rewrite E1; cbn; exact K4).
  assert (E2 : tick r' (tick r w) = dequeue (next_handle wb) (tick r w)).
  { rewrite (@tick_single _ LoopTask undefined r' _ T1).
    unfold loop.
    destruct (@dequeue_single _ LoopTask undefined _ T1) as (_ & -> & _).
    now rewrite S1. }
  destruct (@dequeue_single _ LoopTask undefined _ T1) as (Q1 & Q2 & Q3 & _).
  split; [exact S1|].
  split; [rewrite E1; cbn -[count]; rewrite !count_app, Cc; cbn; lia|].
  split; [rewrite E1; cbn -[count]; rewrite !count_app, Ch; cbn; lia|].
  split; [eexists; exact T1|].
  rewrite E2. split; [exact Q1 | split; [now rewrite Q2|]].
  intros after Ha.
  destruct (@quiescent_exec after (dequeue (next_handle wb) (tick r w)) Q1 Ha) as [_ C].
  now rewrite C, Q3.
Qed.

Lemma callback_can_stop_itself_witness :
  let c := Func [CallStop] (Return (num 7)) in
  let w := run (1 # 2) (new_world c no_options) in
  stopped (this (tick (1 # 3) w)) = true
  /\ count is_call (trace (tick (1 # 3) w)) = S (count is_call (trace w))
  /\ timers (tick (1 # 4) (tick (1 # 3) w)) = [].
Proof.
  cbv zeta.
  destruct (@callback_can_stop_itself [CallStop] (num 7)
              (run (1 # 2) (new_world (Func [CallStop] (Return (num 7))) no_options))
              (1 # 3)%Q (1 # 4)%Q eq_refl (waiting_after_run _ no_options (1 # 2)%Q))
    as (A & B & _ & _ & C & _).
  split; [exact A | split; [exact B | exact C]].
Defined.

(** ** What a fired wait records *)

Lemma fire_wait (h : handle) (t : timer) (r : Q) (w : world) :
  pending h w = Some t -> timer_task t = OuterTask ->
  fire h r w = outer_task (dequeue h w).
Proof.
  intros Hp Ht. unfold fire. now rewrite Hp, Ht.
Qed.

Lemma fire_wait_returning
      (h : handle) (t : timer) (r : Q) (body : list call) (res : value) (w : world) :
  pending h w = Some t -> timer_task t = OuterTask ->
  callback (this w) = Func body (Return res) ->
  exists (tb : list event) (nh : handle),
    trace (fire h r w)
    = trace w ++ EvCall :: tb ++ [EvReturn res; EvHook res; EvSetTimeout nh LoopTask undefined]
    /\ forallb timer_event tb = true
    /\ innerTimeoutTimer (this (fire h r w)) = Some nh
    /\ In (mkTimer nh LoopTask undefined) (timers (fire h r w))
    /\ count is_hook (trace (fire h r w)) = S (count is_hook (trace w)).
Proof.
  intros Hp Ht Hc. rewrite (@fire_wait h t r w Hp Ht).
  unfold outer_task.
  change (callback (this (dequeue h w))) with (callback (this w)). rewrite Hc.
  destruct (only_timer_events_perform_all body (log EvCall (dequeue h w)))
    as (tb & Etb & Htb).
  cbn [log trace dequeue] in Etb.
  remember (perform_all body (log EvCall (dequeue h w))) as wb eqn:Ewb. clear Ewb.
  exists tb, (next_handle wb). cbn -[count]. rewrite Etb.
  assert (Z : count is_hook tb = 0%nat).
  { apply count_timer_events; [| exact Htb]. intros [] E; try discriminate; reflexivity. }
  split; [now rewrite <- !app_assoc|].
  split; [exact Htb|]. split; [reflexivity|].
  split; [apply in_or_app; right; now left|].
  rewrite !count_app, Z. cbn. lia.
Qed.

Lemma fire_wait_throwing
      (h : handle) (t : timer) (r : Q) (body : list call) (w : world) :
  pending h w = Some t -> timer_task t = OuterTask ->
  callback (this w) = Func body Throw ->
  exists tb : list event,
    trace (fire h r w) = trace w ++ EvCall :: tb ++ [EvThrow]
    /\ forallb timer_event tb = true
    /\ count is_hook (trace (fire h r w)) = count is_hook (trace w).
Proof.
  intros Hp Ht Hc. rewrite (@fire_wait h t r w Hp Ht).
  unfold outer_task.
  change (callback (this (dequeue h w))) with (callback (this w)). rewrite Hc.
  destruct (only_timer_events_perform_all body (log EvCall (dequeue h w)))
    as (tb & Etb & Htb).
  cbn [log trace dequeue] in Etb.
  remember (perform_all body (log EvCall (dequeue h w))) as wb eqn:Ewb. clear Ewb.
  exists tb. cbn -[count]. rewrite Etb.
  assert (Z : count is_hook tb = 0%nat).
  { apply count_timer_events; [| exact Htb]. intros [] E; try discriminate; reflexivity. }
  split; [now rewrite <- !app_assoc|]. split; [exact Htb|].
  rewrite !count_app, Z. cbn. lia.
Qed.

(** C8, counterexample: a callback that throws.  After [run()] and the
    firing of the wait the callback has been called once and the hook not
    at all; nothing is queued, so it never will be. *)
Lemma hook_skipped_when_callback_throws :
  let w := exec [Client (CallRun (1 # 2)); Fire 1%nat (1 # 3)]
                (new_world (Func [] Throw) no_options) in
  count is_call (trace w) = 1%nat /\ count is_hook (trace w) = 0%nat
  /\ timers w = [].
Proof. cbv zeta. repeat split. Qed.

(** C8, amended: in every state an instance can reach (constructed with any
    callback and options, then driven by any sequence of method calls and
    timer firings), when the host fires a queued wait and the callback is a
    function that returns [res], the task calls the callback, then at once
    [onCallbackExecuted(res)], exactly once, and only then schedules the
    zero-delay yield of the next iteration, whose handle it stores in
    [innerTimeoutTimer]; between the call and the return there is nothing
    but the timer calls the callback itself makes.  When the callback throws
    instead, the hook is not called.  Hence in every trace each return is
    followed at once by the hook with the returned value and then by that
    [setTimeout], the hook is called nowhere else, it has been called as
    many times as the callback has returned, and every call of the callback
    ended by a return or by an exception.  The hook itself changes neither
    the instance nor the timers. *)
Theorem hook_called_after_each_return
        (c : callable) (o : options) (acts : list action) :
  let w := exec acts (new_world c o) in
  (forall (h : handle) (t : timer) (r : Q) (body : list call) (res : value),
     pending h w = Some t -> timer_task t = OuterTask ->
     callback (this w) = Func body (Return res) ->
     exists (tb : list event) (nh : handle),
       trace (fire h r w)
       = trace w ++ EvCall :: tb
                 ++ [EvReturn res; EvHook res; EvSetTimeout nh LoopTask undefined]
       /\ forallb timer_event tb = true
       /\ innerTimeoutTimer (this (fire h r w)) = Some nh
       /\ In (mkTimer nh LoopTask undefined) (timers (fire h r w))
       /\ count is_hook (trace (fire h r w)) = S (count is_hook (trace w)))
  /\ (forall (h : handle) (t : timer) (r : Q) (body : list call),
     pending h w = Some t -> timer_task t = OuterTask ->
     callback (this w) = Func body Throw ->
     exists tb : list event,
       trace (fire h r w) = trace w ++ EvCall :: tb ++ [EvThrow]
       /\ forallb timer_event tb = true
       /\ count is_hook (trace (fire h r w)) = count is_hook (trace w))
  /\ hook_ok (trace w)
  /\ count is_hook (trace w) = count is_return (trace w)
  /\ count is_call (trace w) = (count is_return (trace w) + count is_throw (trace w))%nat
  /\ (forall (res : value) (w0 : world),
        this (onCallbackExecuted res w0) = this w0
        /\ timers (onCallbackExecuted res w0) = timers w0
        /\ next_handle (onCallbackExecuted res w0) = next_handle w0).
Proof.
  cbv zeta.
  split; [intros h t r body res; apply fire_wait_returning|].
  split; [intros h t r body; apply fire_wait_throwing|].
  destruct (advances_exec acts (new_world c o)) as (tr & -> & H & C).
  cbn [new_world trace app].
  pose proof (hook_ok_counts H) as K.
  repeat split; auto.
Qed.

Lemma hook_called_after_each_return_witness :
  let w := exec [Client (CallRun (1 # 2))] (new_world demo_callback no_options) in
  exists (tb : list event) (nh : handle),
    trace (fire 1%nat (1 # 3) w)
    = trace w ++ EvCall :: tb
              ++ [EvReturn (num 7); EvHook (num 7); EvSetTimeout nh LoopTask undefined]
    /\ forallb timer_event tb = true
    /\ innerTimeoutTimer (this (fire 1%nat (1 # 3) w)) = Some nh
    /\ In (mkTimer nh LoopTask undefined) (timers (fire 1%nat (1 # 3) w))
    /\ count is_hook (trace (fire 1%nat (1 # 3) w)) = S (count is_hook (trace w)).
Proof.
  cbv zeta.
  exact (proj1 (@hook_called_after_each_return demo_callback no_options
                  [Client (CallRun (1 # 2))])
               1%nat
               (mkTimer 1%nat OuterTask
                  (draw (this (on_this (with_stopped false)
                                 (new_world demo_callback no_options))) (1 # 2)))
               (1 # 3)%Q [] (num 7) eq_refl eq_refl eq_refl).
Defined.
